(** * generate_icons.py: squircle mask generation, masking and icon emission

    A shallow embedding of [generate_icons.py].  Python lists, PIL bands and
    numpy arrays are lists of rows; exceptions are an error monad; the file
    system touched by the script is an explicit log of the files written.

    Arithmetic convention.  The script computes the mask with Python floats.
    Here a float is read as the rational number it denotes and every float
    operation is exact: binary64 rounding and the last-bit behaviour of the C
    library's [pow] are outside the model.  What the model keeps of float
    arithmetic is its control flow: [0.0 ** k] with [k < 0] raises
    [ZeroDivisionError] in Python and yields [inf] in numpy, float division
    by zero raises, [int()] truncates toward zero.  Overflow ([OverflowError]
    of [**], [inf] in numpy) is not part of it: statements that range over
    every smoothness speak of the masks that are returned. *)

From Stdlib Require Import ZArith QArith Qround Qabs Qpower Lia Lqa String DecimalString.
From stdpp Require Import base list.

Local Open Scope nat_scope.

(** ** Exceptions *)

Inductive exn : Type :=
| ZeroDivisionError
| IndexError
| ValueError
| OSError
| SystemExit (code : Z).

Inductive result (A : Type) : Type :=
| Ok (a : A)
| Raise (e : exn).
Arguments Ok {A} a.
Arguments Raise {A} e.

#[global] Instance result_bind : MBind result := fun A B f m =>
  match m with
  | Ok a => f a
  | Raise e => Raise e
  end.
#[global] Instance result_ret : MRet result := fun A a => Ok a.

(** [for x in xs: s = body x s], stopping at the first exception. *)
Fixpoint for_each {S : Type} (body : nat -> S -> result S) (xs : list nat) (s : S)
  : result S :=
  match xs with
  | [] => Ok s
  | x :: xs' => s' ← body x s; for_each body xs' s'
  end.

Definition range (n : nat) : list nat := seq 0 n.

(** ** Python floats, read exactly *)

Definition float_of_nat (n : nat) : Q := inject_Z (Z.of_nat n).

(** [a / b] on floats. *)
Definition float_div (a b : Q) : result Q :=
  if Qeq_bool b 0 then Raise ZeroDivisionError else Ok (a / b)%Q.

(** [a ** n] for a float [a] and an int [n]: a zero base under a negative
    exponent raises.  Python also raises OverflowError when the exponent or
    the result is outside the doubles; like rounding, that is outside the
    exact reading, so nothing below asserts that a power at an arbitrary
    exponent is returned. *)
Definition float_pow (a : Q) (n : Z) : result Q :=
  if Qeq_bool a 0 && (n <? 0)%Z then Raise ZeroDivisionError else Ok (a ^ n)%Q.

(** [int(q)]: truncation toward zero. *)
Definition int_of_float (q : Q) : Z := Z.quot (Qnum q) (Zpos (Qden q)).

Definition Qlt_bool (a b : Q) : bool := negb (Qle_bool b a).

(** The literal [0.02]. *)
Definition edge_width : Q := 2 # 100.

(** ** Single-band (mode 'L') images: rows of samples *)

Abbreviation Band := (list (list Z)).

Definition band_height (b : Band) : nat := length b.
Definition band_width (b : Band) : nat :=
  match b with
  | [] => 0
  | r :: _ => length r
  end.

(** [Image.new('L', (w, h), c)] *)
Definition Image_new_L (w h : nat) (c : Z) : Band := replicate h (replicate w c).

(** [im.getpixel((x, y))] *)
Definition getpixel (im : Band) (x y : nat) : option Z :=
  row ← im !! y; row !! x.

(** [im.putpixel((x, y), v)]; PIL raises [IndexError] outside the image. *)
Definition putpixel (im : Band) (x y : nat) (v : Z) : result Band :=
  match im !! y with
  | Some row =>
      if decide (x < length row) then Ok (<[y := <[x := v]> row]> im)
      else Raise IndexError
  | None => Raise IndexError
  end.

(** ** create_squircle_mask: the scalar double loop *)

(** The body of the inner loop at pixel [(x, y)]. *)
Definition squircle_pixel (center radius : Q) (smoothness : Z) (y x : nat)
  (mask : Band) : result Band :=
  nx ← float_div (float_of_nat x - center) radius;
  ny ← float_div (float_of_nat y - center) radius;
  px ← float_pow (Qabs nx) smoothness;
  py ← float_pow (Qabs ny) smoothness;
  let value := (px + py)%Q in
  if Qle_bool value 1 then
    let edge_distance := (1 - value)%Q in
    if Qlt_bool edge_width edge_distance then
      putpixel mask x y 255
    else
      let alpha := int_of_float (255 * (edge_distance / edge_width))%Q in
      putpixel mask x y alpha
  else Ok mask.

Definition create_squircle_mask (size : nat) (smoothness : Z) : result Band :=
  let mask := Image_new_L size size 0 in
  let center := (float_of_nat size / 2)%Q in
  let radius := (float_of_nat size / 2)%Q in
  for_each
    (fun y mask =>
       for_each (fun x mask => squircle_pixel center radius smoothness y x mask)
         (range size) mask)
    (range size) mask.

(** ** numpy float64 arrays

    numpy does not raise on float division by zero or on [0.0 ** k] with
    [k < 0]: it produces [inf] or [nan] (and a warning).  The finite values
    are read exactly, like Python floats. *)

Inductive npfloat : Type :=
| Fin (q : Q)
| PInf
| NInf
| NaN.

Definition np_neg (a : npfloat) : npfloat :=
  match a with
  | Fin q => Fin (- q)%Q
  | PInf => NInf
  | NInf => PInf
  | NaN => NaN
  end.

Definition np_abs (a : npfloat) : npfloat :=
  match a with
  | Fin q => Fin (Qabs q)
  | PInf | NInf => PInf
  | NaN => NaN
  end.

Definition np_add (a b : npfloat) : npfloat :=
  match a, b with
  | Fin x, Fin y => Fin (x + y)%Q
  | NaN, _ | _, NaN => NaN
  | PInf, NInf | NInf, PInf => NaN
  | PInf, _ | _, PInf => PInf
  | NInf, _ | _, NInf => NInf
  end.

Definition np_sub (a b : npfloat) : npfloat := np_add a (np_neg b).

(** [c * a] for a finite scalar [c]. *)
Definition np_scale (c : Q) (a : npfloat) : npfloat :=
  match a with
  | Fin q => Fin (c * q)%Q
  | NaN => NaN
  | PInf | NInf =>
      if Qeq_bool c 0 then NaN
      else if Qle_bool 0 c then a else np_neg a
  end.

(** [a / c] for a finite scalar [c]. *)
Definition np_div (a : npfloat) (c : Q) : npfloat :=
  if Qeq_bool c 0 then
    match a with
    | Fin q =>
        if Qeq_bool q 0 then NaN else if Qle_bool 0 q then PInf else NInf
    | _ => a
    end
  else np_scale (/ c)%Q a.

(** [a ** n] for a Python int [n], element by element; numpy raises nothing
    here and gives [inf] at a zero base under a negative exponent.  The
    conversion of an exponent too large for a double, which numpy refuses,
    and the overflow of a finite power to [inf] are outside the exact
    reading. *)
Definition np_pow (a : npfloat) (n : Z) : npfloat :=
  match a with
  | Fin q => if Qeq_bool q 0 && (n <? 0)%Z then PInf else Fin (q ^ n)%Q
  | PInf => if (0 <? n)%Z then PInf else if (n =? 0)%Z then Fin 1 else Fin 0
  | NInf =>
      if (0 <? n)%Z then (if Z.odd n then NInf else PInf)
      else if (n =? 0)%Z then Fin 1 else Fin 0
  | NaN => if (n =? 0)%Z then Fin 1 else NaN
  end.

(** [a <= c] and [a > c] against a finite scalar; false on [nan]. *)
Definition np_le (a : npfloat) (c : Q) : bool :=
  match a with
  | Fin q => Qle_bool q c
  | NInf => true
  | PInf | NaN => false
  end.

Definition np_gt (a : npfloat) (c : Q) : bool :=
  match a with
  | Fin q => Qlt_bool c q
  | PInf => true
  | NInf | NaN => false
  end.

(** [.astype(np.uint8)]: truncation, then the low eight bits.  The cast of a
    non-finite value is left to the platform by C; it is 0 here and is never
    taken by the mask code, which casts values of the edge zone only. *)
Definition astype_uint8 (a : npfloat) : Z :=
  match a with
  | Fin q => (int_of_float q mod 256)%Z
  | _ => 0%Z
  end.

(** Two-dimensional arrays are lists of rows.  [bzip] is numpy broadcasting
    along one axis: an axis of length 1 is stretched. *)
Definition bzip {A B C : Type} (f : A -> B -> C) (l : list A) (k : list B) : list C :=
  match l, k with
  | [a], _ => map (f a) k
  | _, [b] => map (fun a => f a b) l
  | _, _ => zip_with f l k
  end.

Definition broadcast {A B C : Type} (f : A -> B -> C)
  (a : list (list A)) (b : list (list B)) : list (list C) :=
  bzip (bzip f) a b.

(** [np.ogrid[:size, :size]]: a column of row indices, a row of column indices. *)
Definition ogrid (size : nat) : list (list nat) * list (list nat) :=
  (map (fun y => [y]) (range size), [range size]).

Definition np_zeros (h w : nat) : list (list Z) := replicate h (replicate w 0%Z).

(** [arr[cond] = c] *)
Definition assign_where (cond : list (list bool)) (arr : list (list Z)) (c : Z)
  : list (list Z) :=
  zip_with (zip_with (fun (b : bool) d => if b then c else d)) cond arr.

(** [arr[cond]]: the selected elements, in row-major order. *)
Fixpoint select_row {A : Type} (cond : list bool) (row : list A) : list A :=
  match cond, row with
  | b :: cond', a :: row' =>
      if b then a :: select_row cond' row' else select_row cond' row'
  | _, _ => []
  end.

Fixpoint select {A : Type} (cond : list (list bool)) (arr : list (list A)) : list A :=
  match cond, arr with
  | c :: cond', r :: arr' => select_row c r ++ select cond' arr'
  | _, _ => []
  end.

(** [arr[cond] = vals]: the selected positions are filled from [vals] in
    row-major order; the second component is what is left of [vals]. *)
Fixpoint scatter_row (cond : list bool) (row vals : list Z) : list Z * list Z :=
  match cond, row with
  | b :: cond', d :: row' =>
      if b then
        match vals with
        | v :: vals' =>
            let '(r, rest) := scatter_row cond' row' vals' in (v :: r, rest)
        | [] => (row, [])
        end
      else
        let '(r, rest) := scatter_row cond' row' vals in (d :: r, rest)
  | _, _ => (row, vals)
  end.

Fixpoint scatter (cond : list (list bool)) (arr : list (list Z)) (vals : list Z)
  : list (list Z) :=
  match cond, arr with
  | c :: cond', r :: arr' =>
      let '(r', rest) := scatter_row c r vals in r' :: scatter cond' arr' rest
  | _, _ => arr
  end.

(** ** create_squircle_mask_fast: bulk array operations *)

Definition squircle_array (size : nat) (smoothness : Z) : list (list Z) :=
  let '(y_coords, x_coords) := ogrid size in
  let center := (float_of_nat size / 2)%Q in
  let radius := (float_of_nat size / 2)%Q in
  let nx := map (map (fun x => np_div (Fin (float_of_nat x - center)) radius)) x_coords in
  let ny := map (map (fun y => np_div (Fin (float_of_nat y - center)) radius)) y_coords in
  let value :=
    broadcast np_add
      (map (map (fun a => np_pow (np_abs a) smoothness)) nx)
      (map (map (fun a => np_pow (np_abs a) smoothness)) ny) in
  let mask_array := np_zeros size size in
  let inside := map (map (fun v => np_le v 1)) value in
  let edge_zone :=
    zip_with (zip_with andb)
      (map (map (fun v => np_gt v (1 - edge_width))) value)
      (map (map (fun v => np_le v 1)) value) in
  let mask_array :=
    assign_where (zip_with (zip_with andb) inside (map (map negb) edge_zone))
      mask_array 255 in
  scatter edge_zone mask_array
    (map (fun v => astype_uint8 (np_scale 255 (np_div (np_sub (Fin 1) v) edge_width)))
       (select edge_zone value)).

(** [numpy] tells whether [import numpy] succeeds; [Image.fromarray] of a
    uint8 array in mode 'L' keeps the rows as they are. *)
Definition create_squircle_mask_fast (numpy : bool) (size : nat) (smoothness : Z)
  : result Band :=
  if numpy then Ok (squircle_array size smoothness)
  else create_squircle_mask size smoothness.

(** ** PIL images

    An image is its mode and its bands; each band is a list of rows of 8-bit
    samples.  The modes are the ones whose conversion to RGBA is a plain
    copy of channels; an image has no [info] dictionary, so a PNG
    transparency key on an L or RGB image is not represented. *)

Inductive Image : Type :=
| ImL (l : Band)
| ImRGB (r g b : Band)
| ImRGBA (r g b a : Band).

Definition first_band (im : Image) : Band :=
  match im with
  | ImL l => l
  | ImRGB r _ _ => r
  | ImRGBA r _ _ _ => r
  end.

(** [im.size], as [(width, height)] *)
Definition band_size (b : Band) : nat * nat := (band_width b, band_height b).
Definition image_size (im : Image) : nat * nat := band_size (first_band im).

Definition is_RGBA (im : Image) : bool :=
  match im with
  | ImRGBA _ _ _ _ => true
  | _ => false
  end.

Definition map_bands (f : Band -> Band) (im : Image) : Image :=
  match im with
  | ImL l => ImL (f l)
  | ImRGB r g b => ImRGB (f r) (f g) (f b)
  | ImRGBA r g b a => ImRGBA (f r) (f g) (f b) (f a)
  end.

(** [im.crop((left, top, right, bottom))] for a box inside the image. *)
Definition crop_band (left top right bottom : nat) (b : Band) : Band :=
  map (fun row => take (right - left) (drop left row)) (take (bottom - top) (drop top b)).

Definition crop (im : Image) (left top right bottom : nat) : Image :=
  map_bands (crop_band left top right bottom) im.

(** [im.convert('RGBA')] for an image that carries no transparency key
    ([info['transparency']]): grey is copied to the three colours, a missing
    alpha channel is fully opaque. *)
Definition convert_RGBA (im : Image) : Image :=
  match im with
  | ImL l => ImRGBA l l l (map (map (fun _ => 255%Z)) l)
  | ImRGB r g b => ImRGBA r g b (map (map (fun _ => 255%Z)) r)
  | ImRGBA r g b a => ImRGBA r g b a
  end.

(** [im.split()] *)
Definition split (im : Image) : list Band :=
  match im with
  | ImL l => [l]
  | ImRGB r g b => [r; g; b]
  | ImRGBA r g b a => [r; g; b; a]
  end.

(** Pillow's integer blend of two samples (its [DIV255] and [BLEND]
    macros), stored back into an 8-bit sample. *)
Definition DIV255 (a : Z) : Z :=
  let tmp := (a + 128)%Z in
  Z.shiftr (Z.shiftr tmp 8 + tmp) 8.

Definition BLEND (mask in1 in2 : Z) : Z :=
  (DIV255 (in1 * (255 - mask) + in2 * mask) mod 256)%Z.

Definition zip_with3 {A B C D : Type} (f : A -> B -> C -> D)
  (l1 : list A) (l2 : list B) (l3 : list C) : list D :=
  zip_with (fun a bc => f a (fst bc) (snd bc)) l1 (zip l2 l3).

(** [Image.composite(image1, image2, mask)]: a copy of [image2] onto which
    [image1] is pasted through [mask]. *)
Definition composite (image1 image2 mask : Band) : result Band :=
  if decide (band_size image1 = band_size image2 ∧ band_size mask = band_size image2)
  then
    Ok (zip_with3 (zip_with3 (fun p1 p2 m => BLEND m p2 p1)) image1 image2 mask)
  else Raise ValueError.

(** [Image.merge('RGBA', (r, g, b, a))] *)
Definition merge_RGBA (r g b a : Band) : result Image :=
  if decide (band_size g = band_size r ∧ band_size b = band_size r
             ∧ band_size a = band_size r)
  then Ok (ImRGBA r g b a)
  else Raise ValueError.

(** ** apply_squircle_mask *)

Definition apply_squircle_mask (numpy : bool) (image : Image) (smoothness : Z)
  : result Image :=
  let '(width, height) := image_size image in
  let size := Nat.min width height in
  let image :=
    if decide (width ≠ height) then
      let left := (width - size) / 2 in
      let top := (height - size) / 2 in
      crop image left top (left + size) (top + size)
    else image in
  let image := if negb (is_RGBA image) then convert_RGBA image else image in
  mask ← create_squircle_mask_fast numpy size smoothness;
  match split image with
  | [r; g; b; a] =>
      a' ← composite a (Image_new_L size size 0) mask;
      merge_RGBA r g b a'
  | _ => Raise ValueError
  end.

(** The source after the crop and the conversion, before masking. *)
Definition prepared_source (image : Image) : Image :=
  let '(width, height) := image_size image in
  let size := Nat.min width height in
  let image :=
    if decide (width ≠ height) then
      let left := (width - size) / 2 in
      let top := (height - size) / 2 in
      crop image left top (left + size) (top + size)
    else image in
  if negb (is_RGBA image) then convert_RGBA image else image.

Definition alpha_band (im : Image) : option Band :=
  match im with
  | ImRGBA _ _ _ a => Some a
  | _ => None
  end.

Definition colour_bands (im : Image) : list Band :=
  match im with
  | ImL l => [l]
  | ImRGB r g b => [r; g; b]
  | ImRGBA r g b _ => [r; g; b]
  end.

(** A well-formed image: every band is a [w] by [h] grid of samples in
    [0, 255]. *)
Definition wf_band (w h : nat) (b : Band) : Prop :=
  length b = h ∧ Forall (fun row => length row = w ∧ Forall (fun v => 0 <= v <= 255)%Z row) b.

Definition wf_image (im : Image) : Prop :=
  let '(w, h) := image_size im in
  Forall (wf_band w h) (split im).

(** ** generate_icon_set and main *)

Local Open Scope string_scope.

(** [Path(a) / b] *)
Definition path_join (a b : string) : string := a ++ "/" ++ b.

(** What the script reads from its surroundings. *)
Record Env : Type := mkEnv {
  pillow : bool;                          (* [from PIL import ...] succeeds *)
  numpy : bool;                           (* [import numpy] succeeds *)
  argv : list string;                     (* [sys.argv] *)
  script_dir : string;                    (* [Path(__file__).parent] *)
  path_exists : string -> bool;           (* [Path.exists] *)
  Image_open : string -> option Image     (* [Image.open], decoded; [None]
                                             when Pillow cannot read the file *)
}.

(** What the script leaves behind: the directories it created and the files
    it wrote, oldest first. *)
Record Disk : Type := mkDisk {
  dirs : list string;
  files : list (string * Image)
}.

Definition mkdir (path : string) (d : Disk) : Disk :=
  mkDisk (dirs d ++ [path]) (files d).

(** [im.save(path, "PNG")] *)
Definition save (path : string) (im : Image) (d : Disk) : Disk :=
  mkDisk (dirs d) (files d ++ [(path, im)]).

Definition icon_sizes : list (nat * nat * string) :=
  [ (16, 1, "icon_16x16.png");
    (16, 2, "icon_16x16@2x.png");
    (32, 1, "icon_32x32.png");
    (32, 2, "icon_32x32@2x.png");
    (128, 1, "icon_128x128.png");
    (128, 2, "icon_128x128@2x.png");
    (256, 1, "icon_256x256.png");
    (256, 2, "icon_256x256@2x.png");
    (512, 1, "icon_512x512.png");
    (512, 2, "icon_512x512@2x.png") ]%nat.

(** [tab h w g] is the [w] by [h] grid whose sample at [(x, y)] is [g y x]. *)
Definition tab {A : Type} (h w : nat) (g : nat -> nat -> A) : list (list A) :=
  map (fun y => map (fun x => g y x) (seq 0 w)) (seq 0 h).

Section Pipeline.

(** The resampling filter is Pillow's: [lanczos im (w, h) c x y] is the
    sample of band [c] at [(x, y)] when [im] is resampled to [w] by [h]. *)
Variable lanczos : Image -> nat * nat -> nat -> nat -> nat -> Z.

(** [im.resize((w, h), Image.Resampling.LANCZOS)] *)
Definition resize (im : Image) (size : nat * nat) : Image :=
  let band c := tab (snd size) (fst size) (fun y x => lanczos im size c x y) in
  match im with
  | ImL _ => ImL (band 0%nat)
  | ImRGB _ _ _ => ImRGB (band 0%nat) (band 1%nat) (band 2%nat)
  | ImRGBA _ _ _ _ => ImRGBA (band 0%nat) (band 1%nat) (band 2%nat) (band 3%nat)
  end.

(** The body of the emission loop. *)
Definition emit_icon (masked_source : Image) (output_dir : string)
  (d : Disk) (entry : nat * nat * string) : Disk :=
  let '(base_size, scale, filename) := entry in
  let actual_size := (base_size * scale)%nat in
  let output_path := path_join output_dir filename in
  let resized := resize masked_source (actual_size, actual_size) in
  save output_path resized d.

Definition generate_icon_set (env : Env) (source_path output_dir : string)
  (d : Disk) : result unit * Disk :=
  match Image_open env source_path with
  | None => (Raise OSError, d)
  | Some source =>
      match apply_squircle_mask (numpy env) source 5 with
      | Raise e => (Raise e, d)
      | Ok masked_source =>
          let d := mkdir output_dir d in
          (Ok tt, fold_left (emit_icon masked_source output_dir) icon_sizes d)
      end
  end.

(** The first candidate that exists, [None] when the loop finds none. *)
Fixpoint first_existing (env : Env) (candidates : list string) : option string :=
  match candidates with
  | [] => None
  | candidate :: rest =>
      if path_exists env candidate then Some candidate
      else first_existing env rest
  end.

Definition asset_dir (env : Env) : string :=
  path_join (path_join (path_join (script_dir env) "PlaintextPanic")
               "Assets.xcassets") "AppIcon.appiconset".

Definition candidates (env : Env) : list string :=
  [ path_join (script_dir env) "icon.png";
    path_join (asset_dir env) "icon_512x512@2x.png";
    path_join (asset_dir env) "icon_512x512.png" ].

Definition main (env : Env) (d : Disk) : result unit * Disk :=
  let source_path :=
    match argv env with
    | _ :: arg :: _ => Ok arg
    | _ =>
        match first_existing env (candidates env) with
        | Some p => Ok p
        | None => Raise (SystemExit 1)
        end
    end in
  match source_path with
  | Raise e => (Raise e, d)
  | Ok source_path =>
      if negb (path_exists env source_path) then (Raise (SystemExit 1), d)
      else generate_icon_set env source_path (asset_dir env) d
  end.

(** The module as run: the import guard, then [main()]. *)
Definition script (env : Env) (d : Disk) : result unit * Disk :=
  if pillow env then main env d else (Raise (SystemExit 1), d).


End Pipeline.

(** The source path the run settles on: the explicit argument or the first
    candidate, provided it exists. *)
Definition resolved_source (env : Env) : option string :=
  match argv env with
  | _ :: arg :: _ => if path_exists env arg then Some arg else None
  | _ => first_existing env (candidates env)
  end.

(** The catalogue as pairs of base size and scale. *)
Definition catalogue : list (nat * nat) :=
  [(16, 1); (16, 2); (32, 1); (32, 2); (128, 1); (128, 2);
   (256, 1); (256, 2); (512, 1); (512, 2)]%nat.

(** The names the catalogue is documented to follow. *)
Definition decimal (n : nat) : string := DecimalString.NilEmpty.string_of_uint (Nat.to_uint n).

Definition icon_name (base scale : nat) : string :=
  "icon_" ++ decimal base ++ "x" ++ decimal base
  ++ (if Nat.eqb scale 1 then "" else "@" ++ decimal scale ++ "x") ++ ".png".

Local Close Scope string_scope.

(** ** Closed forms used by the proofs *)

(** A list filled from the left, one index at a time. *)
Definition filled {A : Type} (f : nat -> A) (z : A) (n i : nat) : list A :=
  map f (seq 0 i) ++ replicate (n - i) z.

(** Lines 49-54 without the error cases: the superellipse value at [(x, y)]. *)
Definition squircle_value (size : nat) (smoothness : Z) (x y : nat) : Q :=
  let center := (float_of_nat size / 2)%Q in
  let radius := (float_of_nat size / 2)%Q in
  let nx := ((float_of_nat x - center) / radius)%Q in
  let ny := ((float_of_nat y - center) / radius)%Q in
  (Qabs nx ^ smoothness + Qabs ny ^ smoothness)%Q.

(** Lines 56-65 as a function of [value]; a pixel that is not written keeps
    the 0 of [Image.new]. *)
Definition pixel_alpha (value : Q) : Z :=
  if Qle_bool value 1 then
    if Qlt_bool edge_width (1 - value) then 255%Z
    else int_of_float (255 * ((1 - value) / edge_width))%Q
  else 0%Z.

Definition squircle_grid (size : nat) (smoothness : Z) : Band :=
  tab size size (fun y x => pixel_alpha (squircle_value size smoothness x y)).

(** The superellipse value as the array code computes it. *)
Definition np_value (size : nat) (smoothness : Z) (x y : nat) : npfloat :=
  let center := (float_of_nat size / 2)%Q in
  let radius := (float_of_nat size / 2)%Q in
  np_add
    (np_pow (np_abs (np_div (Fin (float_of_nat x - center)) radius)) smoothness)
    (np_pow (np_abs (np_div (Fin (float_of_nat y - center)) radius)) smoothness).

(** Lines 92-100 at one element. *)
Definition array_alpha (v : npfloat) : Z :=
  let inside := np_le v 1 in
  let edge_zone := np_gt v (1 - edge_width) && np_le v 1 in
  if edge_zone then
    astype_uint8 (np_scale 255 (np_div (np_sub (Fin 1) v) edge_width))
  else if inside && negb edge_zone then 255%Z
  else 0%Z.

(** The sample of a band at [(x, y)], 0 outside the band. *)
Definition pixel_at (b : Band) (y x : nat) : Z := nth x (nth y b []) 0%Z.

(** The alpha band the applicator writes, sample by sample. *)
Definition masked_alpha (n : nat) (alpha : Band) : Band :=
  tab n n (fun y x => BLEND (pixel_alpha (squircle_value n 5 x y)) 0 (pixel_at alpha y x)).

(** The files a run that reaches the emission loop adds to the disk. *)
Definition emitted (lanczos : Image -> nat * nat -> nat -> nat -> nat -> Z)
  (masked : Image) : list Image :=
  map (fun '(base, scale) => resize lanczos masked (base * scale, base * scale)) catalogue.

Definition emitted_paths (output_dir : string) : list string :=
  map (fun '(base, scale) => path_join output_dir (icon_name base scale)) catalogue.

(** ** Sample inputs *)

(** A 3 by 2 RGB image used to run the applicator. *)
Definition sample_image : Image :=
  ImRGB [[10; 20; 30]; [40; 50; 60]]%Z
        [[11; 21; 31]; [41; 51; 61]]%Z
        [[12; 22; 32]; [42; 52; 62]]%Z.

(** A 2 by 2 RGBA image with a partly transparent alpha band. *)
Definition sample_square : Image :=
  ImRGBA [[10; 20]; [30; 40]]%Z [[11; 21]; [31; 41]]%Z
         [[12; 22]; [32; 42]]%Z [[255; 128]; [64; 200]]%Z.

(** A stand-in for the resampling filter, to run the pipeline: the nearest
    source sample. *)
Definition nearest (im : Image) (size : nat * nat) (c x y : nat) : Z :=
  pixel_at (nth c (split im) [])
    (y * snd (image_size im) / snd size) (x * fst (image_size im) / fst size).

(** A run with an explicit source that exists and decodes. *)
Definition sample_env : Env :=
  mkEnv true true ["generate_icons.py"; "icon.png"]%string "."%string
    (fun _ => true) (fun _ => Some sample_square).

(** The same surroundings with numpy present or absent. *)
Definition set_numpy (b : bool) (env : Env) : Env :=
  mkEnv (pillow env) b (argv env) (script_dir env) (path_exists env) (Image_open env).

(** A run without argument in which only the catalogue's own
    icon_512x512@2x.png exists. *)
Definition sample_env_default : Env :=
  mkEnv true false ["generate_icons.py"]%string "."%string
    (fun p => String.eqb p
                "./PlaintextPanic/Assets.xcassets/AppIcon.appiconset/icon_512x512@2x.png")
    (fun _ => Some sample_image).

(** * Properties *)

(** ** The functions on small inputs *)

Local Open Scope string_scope.

Example icon_name_16 : icon_name 16 1 = "icon_16x16.png".
Proof. reflexivity. Qed.

Example icon_name_512_2 : icon_name 512 2 = "icon_512x512@2x.png".
Proof. reflexivity. Qed.

Local Close Scope string_scope.

Example mask_2 : create_squircle_mask 2 5 = Ok [[0; 0]; [0; 255]]%Z.
Proof. vm_compute. reflexivity. Qed.

Example mask_fast_2 : create_squircle_mask_fast true 2 5 = Ok [[0; 0]; [0; 255]]%Z.
Proof. vm_compute. reflexivity. Qed.

Example mask_4 :
  create_squircle_mask 4 5 = Ok [[0; 0; 0; 0]; [0; 255; 255; 255];
                                 [0; 255; 255; 255]; [0; 255; 255; 255]]%Z.
Proof. vm_compute. reflexivity. Qed.

Example mask_fast_4 :
  create_squircle_mask_fast true 4 5 = create_squircle_mask 4 5.
Proof. vm_compute. reflexivity. Qed.

Example mask_22_edge :
  exists mask : Band,
    create_squircle_mask 22 5 = Ok mask
    /\ getpixel mask 2 1 = Some 158%Z
    /\ getpixel mask 20 1 = Some 158%Z
    /\ getpixel mask 19 1 = Some 255%Z
    /\ getpixel mask 21 1 = Some 0%Z.
Proof. eexists. split; [vm_compute; reflexivity |]. repeat split. Qed.

Example mask_neg_scalar : create_squircle_mask 2 (-1) = Raise ZeroDivisionError.
Proof. vm_compute. reflexivity. Qed.

Example mask_neg_fast : create_squircle_mask_fast true 2 (-1) = Ok [[0; 0]; [0; 0]]%Z.
Proof. vm_compute. reflexivity. Qed.


(** ** Loops *)

Lemma for_each_invariant {S : Type} (P : nat -> S -> Prop)
  (body : nat -> S -> result S) (n : nat) :
  forall (a : nat) (s : S),
    P a s ->
    (forall i s, a <= i < a + n -> P i s -> exists s', body i s = Ok s' /\ P (1 + i) s') ->
    exists s', for_each body (seq a n) s = Ok s' /\ P (a + n) s'.
Proof.
  induction n as [|n IH]; intros a s Ha Hstep; simpl.
  - exists s. rewrite Nat.add_0_r. auto.
  - destruct (Hstep a s) as (s1 & Hb & Hs1); [lia | exact Ha |].
    rewrite Hb. simpl.
    destruct (IH (1 + a) s1) as (s2 & Hf & Hs2); [exact Hs1 | |].
    + intros i s' Hi HP. apply Hstep; [lia | exact HP].
    + exists s2. split; [exact Hf |].
      replace (a + Datatypes.S n) with (1 + a + n) by lia. exact Hs2.
Qed.

Lemma filled_start {A : Type} (f : nat -> A) (z : A) (n : nat) :
  filled f z n 0 = replicate n z.
Proof. unfold filled. simpl. rewrite Nat.sub_0_r. reflexivity. Qed.

Lemma filled_end {A : Type} (f : nat -> A) (z : A) (n : nat) :
  filled f z n n = map f (seq 0 n).
Proof. unfold filled. rewrite Nat.sub_diag. simpl. apply app_nil_r. Qed.

Lemma filled_length {A : Type} (f : nat -> A) (z : A) (n i : nat) :
  i <= n -> length (filled f z n i) = n.
Proof.
  intros Hi. unfold filled.
  rewrite length_app, length_map, length_seq, length_replicate. lia.
Qed.

Lemma filled_lookup {A : Type} (f : nat -> A) (z : A) (n i : nat) :
  i < n -> filled f z n i !! i = Some z.
Proof.
  intros Hi. unfold filled.
  rewrite lookup_app_r by (rewrite length_map, length_seq; lia).
  rewrite length_map, length_seq, Nat.sub_diag.
  apply lookup_replicate. split; [reflexivity | lia].
Qed.

Lemma filled_step {A : Type} (f : nat -> A) (z : A) (n i : nat) :
  i < n -> <[i := f i]> (filled f z n i) = filled f z n (1 + i).
Proof.
  intros Hi. unfold filled.
  rewrite insert_app_r_alt by (rewrite length_map, length_seq; lia).
  rewrite length_map, length_seq, Nat.sub_diag.
  replace (n - i) with (Datatypes.S (n - (1 + i))) by lia.
  simpl replicate. simpl insert.
  replace (1 + i) with (i + 1) by lia.
  rewrite seq_app, map_app. simpl. rewrite <- app_assoc. reflexivity.
Qed.

(** ** Grids *)

Lemma tab_length {A : Type} (h w : nat) (g : nat -> nat -> A) :
  length (tab h w g) = h.
Proof. unfold tab. rewrite length_map, length_seq. reflexivity. Qed.

Lemma tab_lookup {A : Type} (h w : nat) (g : nat -> nat -> A) (y : nat) :
  y < h -> tab h w g !! y = Some (map (fun x => g y x) (seq 0 w)).
Proof.
  intros Hy. unfold tab. rewrite list_lookup_fmap.
  rewrite lookup_seq_lt by exact Hy. reflexivity.
Qed.

Lemma tab_lookup2 {A : Type} (h w : nat) (g : nat -> nat -> A) (x y : nat) :
  x < w -> y < h -> (tab h w g !! y) ≫= (fun row => row !! x) = Some (g y x).
Proof.
  intros Hx Hy. rewrite tab_lookup by exact Hy. simpl.
  rewrite list_lookup_fmap, lookup_seq_lt by exact Hx. reflexivity.
Qed.

Lemma tab_ext {A : Type} (h w : nat) (g g' : nat -> nat -> A) :
  (forall x y, x < w -> y < h -> g y x = g' y x) -> tab h w g = tab h w g'.
Proof.
  intros H. unfold tab. apply map_ext_in. intros y Hy.
  apply map_ext_in. intros x Hx.
  apply in_seq in Hy, Hx. apply H; lia.
Qed.

Lemma tab_rows {A : Type} (h w : nat) (g : nat -> nat -> A) :
  Forall (fun row => length row = w) (tab h w g).
Proof.
  unfold tab. apply Forall_forall. intros row Hrow.
  apply list_elem_of_fmap in Hrow. destruct Hrow as (y & -> & _).
  rewrite length_map, length_seq. reflexivity.
Qed.

Lemma getpixel_tab (h w : nat) (g : nat -> nat -> Z) (x y : nat) :
  x < w -> y < h -> getpixel (tab h w g) x y = Some (g y x).
Proof. intros Hx Hy. unfold getpixel. apply tab_lookup2; assumption. Qed.

(** ** The scalar loop computes a closed form *)

Lemma radius_nonzero (size : nat) :
  0 < size -> Qeq_bool (float_of_nat size / 2) 0 = false.
Proof.
  intros Hs. destruct (Qeq_bool _ _) eqn:E; [| reflexivity].
  apply Qeq_bool_eq in E. exfalso.
  assert (H : (0 < float_of_nat size)%Q).
  { unfold float_of_nat. replace 0%Q with (inject_Z 0) by reflexivity.
    rewrite <- Zlt_Qlt. lia. }
  assert (H2 : (float_of_nat size == float_of_nat size / 2 * 2)%Q) by field.
  rewrite E in H2. lra.
Qed.

Lemma squircle_pixel_ok (size : nat) (smoothness : Z) (x y : nat)
  (mask : Band) (row : list Z) :
  0 < size -> (0 <= smoothness)%Z ->
  mask !! y = Some row -> row !! x = Some 0%Z ->
  squircle_pixel (float_of_nat size / 2) (float_of_nat size / 2) smoothness y x mask
  = Ok (<[y := <[x := pixel_alpha (squircle_value size smoothness x y)]> row]> mask).
Proof.
  intros Hs Hn Hy Hx.
  assert (Hneg : (smoothness <? 0)%Z = false) by (apply Z.ltb_ge; exact Hn).
  unfold squircle_pixel, float_div.
  rewrite (radius_nonzero size Hs). cbn [mbind result_bind].
  unfold float_pow. rewrite Hneg, !andb_false_r. cbn [mbind result_bind].
  fold (squircle_value size smoothness x y).
  unfold pixel_alpha, putpixel. rewrite Hy.
  assert (Hlen : x < length row) by (eapply lookup_lt_Some; exact Hx).
  destruct (Qle_bool (squircle_value size smoothness x y) 1).
  - destruct (Qlt_bool _ _); rewrite decide_True by exact Hlen; reflexivity.
  - rewrite (list_insert_id row x 0%Z Hx), (list_insert_id mask y row Hy).
    reflexivity.
Qed.

Lemma squircle_row_ok (size : nat) (smoothness : Z) (y : nat) (mask : Band) :
  0 < size -> (0 <= smoothness)%Z ->
  mask !! y = Some (replicate size 0%Z) ->
  for_each
    (fun x mask =>
       squircle_pixel (float_of_nat size / 2) (float_of_nat size / 2) smoothness y x mask)
    (range size) mask
  = Ok (<[y := map (fun x => pixel_alpha (squircle_value size smoothness x y)) (seq 0 size)]> mask).
Proof.
  intros Hs Hn Hy.
  set (f := fun x => pixel_alpha (squircle_value size smoothness x y)).
  destruct (for_each_invariant
              (fun x m => x <= size /\ m = <[y := filled f 0%Z size x]> mask)
              (fun x mask =>
                 squircle_pixel (float_of_nat size / 2) (float_of_nat size / 2)
                   smoothness y x mask)
              size 0 mask) as (m & Hm & _ & ->).
  - split; [lia |]. rewrite filled_start. symmetry. apply list_insert_id. exact Hy.
  - intros x m Hx (_ & ->).
    assert (Hylen : y < length mask) by (eapply lookup_lt_Some; exact Hy).
    rewrite (squircle_pixel_ok size smoothness x y _ (filled f 0%Z size x) Hs Hn).
    + eexists. split; [reflexivity |]. split; [lia |].
      rewrite list_insert_insert_eq. fold (f x).
      rewrite filled_step by lia. reflexivity.
    + apply list_lookup_insert_eq. exact Hylen.
    + apply filled_lookup. lia.
  - unfold range. rewrite Hm. simpl. rewrite filled_end. reflexivity.
Qed.

(** With a non-negative exponent the double loop raises nothing and leaves
    the closed form in the image. *)
Lemma create_squircle_mask_grid (size : nat) (smoothness : Z) :
  (0 <= smoothness)%Z ->
  create_squircle_mask size smoothness = Ok (squircle_grid size smoothness).
Proof.
  intros Hn. destruct size as [|k]; [reflexivity |].
  set (size := Datatypes.S k). assert (Hs : 0 < size) by (unfold size; lia).
  unfold create_squircle_mask, Image_new_L, squircle_grid, tab. fold size.
  set (rowf := fun y => map (fun x => pixel_alpha (squircle_value size smoothness x y))
                          (seq 0 size)).
  destruct (for_each_invariant
              (fun y m => y <= size /\ m = filled rowf (replicate size 0%Z) size y)
              (fun y mask =>
                 for_each
                   (fun x mask =>
                      squircle_pixel (float_of_nat size / 2) (float_of_nat size / 2)
                        smoothness y x mask)
                   (range size) mask)
              size 0 (replicate size (replicate size 0%Z))) as (m & Hm & _ & ->).
  - split; [lia |]. rewrite filled_start. reflexivity.
  - intros y m Hy (_ & ->).
    rewrite squircle_row_ok; [| exact Hs | exact Hn | apply filled_lookup; lia].
    eexists. split; [reflexivity |]. split; [lia |].
    fold (rowf y). apply filled_step. lia.
  - unfold range in Hm |- *. rewrite Hm. simpl. rewrite filled_end. reflexivity.
Qed.

(** ** The array code computes a closed form *)

Lemma zip_with_map_same {A B C D : Type} (f : B -> C -> D) (g : A -> B) (g' : A -> C)
  (l : list A) :
  zip_with f (map g l) (map g' l) = map (fun a => f (g a) (g' a)) l.
Proof. induction l as [|a l IH]; simpl; [reflexivity | rewrite IH; reflexivity]. Qed.

Lemma map_tab {A B : Type} (f : A -> B) (h w : nat) (g : nat -> nat -> A) :
  map (map f) (tab h w g) = tab h w (fun y x => f (g y x)).
Proof.
  unfold tab. rewrite map_map. apply map_ext. intros y. apply map_map.
Qed.

Lemma zip_with_tab {A B C : Type} (f : A -> B -> C) (h w : nat)
  (g : nat -> nat -> A) (g' : nat -> nat -> B) :
  zip_with (zip_with f) (tab h w g) (tab h w g') = tab h w (fun y x => f (g y x) (g' y x)).
Proof.
  unfold tab. rewrite zip_with_map_same. apply map_ext. intros y.
  apply zip_with_map_same.
Qed.

Lemma replicate_map {A : Type} (c : A) (n : nat) :
  replicate n c = map (fun _ => c) (seq 0 n).
Proof.
  generalize 0. induction n as [|n IH]; intros a; simpl; [reflexivity |].
  rewrite (IH (Datatypes.S a)). reflexivity.
Qed.

Lemma replicate_tab {A : Type} (c : A) (h w : nat) :
  replicate h (replicate w c) = tab h w (fun _ _ => c).
Proof. unfold tab. rewrite (replicate_map _ h), (replicate_map c w). reflexivity. Qed.

Lemma bzip_row {A B C : Type} (f : A -> B -> C) (row : list A) (b : B) :
  bzip f row [b] = map (fun a => f a b) row.
Proof. destruct row as [|a [|a' row]]; reflexivity. Qed.

Lemma broadcast_ogrid {A B C : Type} (f : A -> B -> C) (gx : nat -> A) (gy : nat -> B)
  (n : nat) :
  broadcast f [map gx (seq 0 n)] (map (fun y => [gy y]) (seq 0 n))
  = tab n n (fun y x => f (gx x) (gy y)).
Proof.
  unfold broadcast, tab. cbn [bzip]. rewrite map_map.
  apply map_ext. intros y. rewrite bzip_row. apply map_map.
Qed.

Lemma scatter_row_map {A : Type} (c : nat -> bool) (d : nat -> Z) (v : nat -> A)
  (f : A -> Z) (l : list nat) (rest : list Z) :
  scatter_row (map c l) (map d l) (map f (select_row (map c l) (map v l)) ++ rest)
  = (map (fun x => if c x then f (v x) else d x) l, rest).
Proof.
  induction l as [|x l IH]; simpl; [reflexivity |].
  destruct (c x); simpl; rewrite IH; reflexivity.
Qed.

Lemma scatter_map {A : Type} (c : nat -> nat -> bool) (d : nat -> nat -> Z)
  (v : nat -> nat -> A) (f : A -> Z) (lx ly : list nat) (rest : list Z) :
  scatter (map (fun y => map (c y) lx) ly) (map (fun y => map (d y) lx) ly)
    (map f (select (map (fun y => map (c y) lx) ly) (map (fun y => map (v y) lx) ly))
     ++ rest)
  = map (fun y => map (fun x => if c y x then f (v y x) else d y x) lx) ly.
Proof.
  revert rest. induction ly as [|y ly IH]; intros rest; simpl; [reflexivity |].
  rewrite map_app, <- app_assoc, scatter_row_map, IH. reflexivity.
Qed.

Lemma scatter_tab {A : Type} (h w : nat) (c : nat -> nat -> bool) (d : nat -> nat -> Z)
  (v : nat -> nat -> A) (f : A -> Z) :
  scatter (tab h w c) (tab h w d) (map f (select (tab h w c) (tab h w v)))
  = tab h w (fun y x => if c y x then f (v y x) else d y x).
Proof.
  unfold tab.
  rewrite <- (app_nil_r (map f _)). apply scatter_map.
Qed.

Lemma squircle_array_grid (size : nat) (smoothness : Z) :
  squircle_array size smoothness
  = tab size size (fun y x => array_alpha (np_value size smoothness x y)).
Proof.
  unfold squircle_array, ogrid, range, np_zeros.
  cbn [map]. rewrite !map_map. cbn [map].
  rewrite (broadcast_ogrid np_add
             (fun x => np_pow (np_abs (np_div (Fin (float_of_nat x - float_of_nat size / 2))
                                         (float_of_nat size / 2))) smoothness)
             (fun y => np_pow (np_abs (np_div (Fin (float_of_nat y - float_of_nat size / 2))
                                         (float_of_nat size / 2))) smoothness)).
  unfold assign_where. rewrite replicate_tab.
  repeat (rewrite map_tab || rewrite zip_with_tab).
  rewrite scatter_tab.
  apply tab_ext. intros x y _ _. unfold array_alpha, np_value. cbv zeta.
  destruct (np_gt _ _ && np_le _ _); [reflexivity |].
  destruct (np_le _ _ && negb false); reflexivity.
Qed.

(** ** Truncation and the opacity ramp *)

Lemma int_of_float_nonneg (q : Q) : (0 <= q)%Q -> int_of_float q = Qfloor q.
Proof.
  destruct q as [n d]. unfold Qle, int_of_float, Qfloor. simpl. intros H.
  apply Z.quot_div_nonneg; lia.
Qed.

Lemma int_of_float_nonpos (q : Q) : (q <= 0)%Q -> int_of_float q = (- Qfloor (- q))%Z.
Proof.
  destruct q as [n d]. unfold Qle, int_of_float, Qfloor, Qopp. simpl. intros H.
  rewrite <- (Z.opp_involutive n) at 1.
  rewrite Z.quot_opp_l by lia. f_equal.
  apply Z.quot_div_nonneg; lia.
Qed.

Lemma int_of_float_comp (q q' : Q) : (q == q')%Q -> int_of_float q = int_of_float q'.
Proof.
  intros E. destruct (Qlt_le_dec q 0) as [Hneg | Hpos].
  - rewrite (int_of_float_nonpos q), (int_of_float_nonpos q') by lra.
    rewrite E. reflexivity.
  - rewrite (int_of_float_nonneg q), (int_of_float_nonneg q') by lra.
    rewrite E. reflexivity.
Qed.

Lemma int_of_float_Z (z : Z) (q : Q) : (q == inject_Z z)%Q -> int_of_float q = z.
Proof.
  intros E. rewrite (int_of_float_comp _ _ E).
  unfold int_of_float, inject_Z. simpl. apply Z.quot_1_r.
Qed.

Lemma int_of_float_range (q : Q) (z : Z) :
  (0 <= q)%Q -> (q <= inject_Z z)%Q -> (0 <= int_of_float q <= z)%Z.
Proof.
  intros H0 H1. rewrite int_of_float_nonneg by exact H0. split.
  - replace 0%Z with (Qfloor 0) by reflexivity. apply Qfloor_resp_le. exact H0.
  - rewrite <- (Qfloor_Z z). apply Qfloor_resp_le. exact H1.
Qed.

Lemma int_of_float_mono (q q' : Q) :
  (0 <= q)%Q -> (q <= q')%Q -> (int_of_float q <= int_of_float q')%Z.
Proof.
  intros H0 H1. rewrite !int_of_float_nonneg by lra. apply Qfloor_resp_le. exact H1.
Qed.

Lemma Qle_bool_false (a b : Q) : Qle_bool a b = false <-> (b < a)%Q.
Proof.
  split.
  - intros H. apply Qnot_le_lt. intros Hle. apply Qle_bool_iff in Hle. congruence.
  - intros H. destruct (Qle_bool a b) eqn:E; [| reflexivity].
    apply Qle_bool_iff in E. lra.
Qed.

Lemma Qlt_bool_iff (a b : Q) : Qlt_bool a b = true <-> (a < b)%Q.
Proof.
  unfold Qlt_bool. rewrite negb_true_iff. apply Qle_bool_false.
Qed.

Lemma Qlt_bool_false (a b : Q) : Qlt_bool a b = false <-> (b <= a)%Q.
Proof.
  unfold Qlt_bool. rewrite negb_false_iff. apply Qle_bool_iff.
Qed.

(** The ramp of the edge zone, [255 * ((1 - v) / 0.02)], is [12750 * (1 - v)]. *)
Lemma ramp_eq (v : Q) : (255 * ((1 - v) / edge_width) == 12750 * (1 - v))%Q.
Proof. unfold edge_width. field. Qed.

Ltac qcases :=
  repeat match goal with
    | H : Qle_bool _ _ = true |- _ => apply Qle_bool_iff in H
    | H : Qle_bool _ _ = false |- _ => apply Qle_bool_false in H
    | H : Qlt_bool _ _ = true |- _ => apply Qlt_bool_iff in H
    | H : Qlt_bool _ _ = false |- _ => apply Qlt_bool_false in H
    end.

Lemma pixel_alpha_cases (v : Q) :
  ((v < 1 - edge_width)%Q /\ pixel_alpha v = 255%Z)
  \/ ((1 - edge_width <= v <= 1)%Q
      /\ pixel_alpha v = int_of_float (255 * ((1 - v) / edge_width))%Q)
  \/ ((1 < v)%Q /\ pixel_alpha v = 0%Z).
Proof.
  unfold pixel_alpha.
  destruct (Qle_bool v 1) eqn:E1; [destruct (Qlt_bool edge_width (1 - v)) eqn:E2 |];
    qcases.
  - left. split; [lra | reflexivity].
  - right. left. split; [split; lra | reflexivity].
  - right. right. split; [lra | reflexivity].
Qed.

Lemma pixel_alpha_comp (v v' : Q) : (v == v')%Q -> pixel_alpha v = pixel_alpha v'.
Proof.
  intros E.
  destruct (pixel_alpha_cases v) as [(H & ->) | [(H & ->) | (H & ->)]];
    destruct (pixel_alpha_cases v') as [(H' & ->) | [(H' & ->) | (H' & ->)]];
    unfold edge_width in *; try lra; try reflexivity.
  apply int_of_float_comp. rewrite E. reflexivity.
Qed.

Lemma pixel_alpha_range (v : Q) : (0 <= pixel_alpha v <= 255)%Z.
Proof.
  destruct (pixel_alpha_cases v) as [(_ & ->) | [(H & ->) | (_ & ->)]]; [lia | | lia].
  unfold edge_width in H.
  apply int_of_float_range; rewrite ramp_eq.
  - lra.
  - change (inject_Z 255) with 255%Q. lra.
Qed.

(** Opacity never grows with the superellipse value. *)
Lemma pixel_alpha_antitone (v v' : Q) :
  (v <= v')%Q -> (pixel_alpha v' <= pixel_alpha v)%Z.
Proof.
  intros Hle.
  destruct (pixel_alpha_cases v) as [(H & ->) | [(H & ->) | (H & ->)]].
  - apply (pixel_alpha_range v').
  - destruct (pixel_alpha_cases v') as [(H' & ->) | [(H' & ->) | (H' & ->)]].
    + unfold edge_width in *. lra.
    + unfold edge_width in *.
      apply int_of_float_mono; rewrite !ramp_eq; lra.
    + unfold edge_width in *.
      apply int_of_float_range with (z := 255%Z); rewrite ramp_eq.
      * lra.
      * change (inject_Z 255) with 255%Q. lra.
  - destruct (pixel_alpha_cases v') as [(H' & ->) | [(H' & ->) | (H' & ->)]];
      unfold edge_width in *; try lra. lia.
Qed.

(** ** The two implementations, element by element *)

Lemma array_alpha_Fin (v : Q) : array_alpha (Fin v) = pixel_alpha v.
Proof.
  unfold array_alpha. cbn [np_le np_gt]. cbv zeta.
  destruct (pixel_alpha_cases v) as [(H & ->) | [(H & ->) | (H & ->)]];
    unfold edge_width in H.
  - assert (E1 : Qlt_bool (1 - edge_width) v = false)
      by (apply Qlt_bool_false; unfold edge_width; lra).
    assert (E2 : Qle_bool v 1 = true) by (apply Qle_bool_iff; lra).
    rewrite E1, E2. reflexivity.
  - assert (E2 : Qle_bool v 1 = true) by (apply Qle_bool_iff; lra).
    rewrite E2. destruct (Qlt_bool (1 - edge_width) v) eqn:E1; qcases;
      unfold edge_width in E1; cbn [andb negb].
    + unfold np_sub, np_neg, np_add, np_div.
      change (Qeq_bool edge_width 0) with false. cbn [np_scale astype_uint8].
      assert (E : (255 * (/ edge_width * (1 + - v)) == 255 * ((1 - v) / edge_width))%Q)
        by (unfold edge_width; field).
      rewrite (int_of_float_comp _ _ E).
      apply Z.mod_small.
      assert (R : (0 <= int_of_float (255 * ((1 - v) / edge_width)) <= 255)%Z).
      { apply int_of_float_range; rewrite ramp_eq.
        - lra.
        - change (inject_Z 255) with 255%Q. lra. }
      lia.
    + symmetry. apply int_of_float_Z. rewrite ramp_eq.
      change (inject_Z 255) with 255%Q. lra.
  - assert (E2 : Qle_bool v 1 = false) by (apply Qle_bool_false; lra).
    rewrite E2, andb_false_r. reflexivity.
Qed.

Lemma np_value_Fin (size : nat) (smoothness : Z) (x y : nat) :
  0 < size -> (0 <= smoothness)%Z ->
  exists v, np_value size smoothness x y = Fin v
            /\ (v == squircle_value size smoothness x y)%Q.
Proof.
  intros Hs Hn.
  assert (Hneg : (smoothness <? 0)%Z = false) by (apply Z.ltb_ge; exact Hn).
  unfold np_value, np_div. rewrite (radius_nonzero size Hs).
  cbn [np_scale np_abs np_pow]. rewrite Hneg, !andb_false_r. cbn [np_add].
  eexists. split; [reflexivity |].
  unfold squircle_value. cbv zeta. unfold Qdiv.
  rewrite 2!(Qmult_comm (/ (float_of_nat size * / 2))). reflexivity.
Qed.

Lemma array_alpha_value (size : nat) (smoothness : Z) (x y : nat) :
  0 < size -> (0 <= smoothness)%Z ->
  array_alpha (np_value size smoothness x y)
  = pixel_alpha (squircle_value size smoothness x y).
Proof.
  intros Hs Hn.
  destruct (np_value_Fin size smoothness x y Hs Hn) as (v & -> & E).
  rewrite array_alpha_Fin. apply pixel_alpha_comp. exact E.
Qed.

Lemma create_squircle_mask_fast_grid (numpy : bool) (size : nat) (smoothness : Z) :
  (0 <= smoothness)%Z ->
  create_squircle_mask_fast numpy size smoothness = Ok (squircle_grid size smoothness).
Proof.
  intros Hn. unfold create_squircle_mask_fast. destruct numpy.
  - f_equal. rewrite squircle_array_grid. unfold squircle_grid.
    destruct size as [|k]; [reflexivity |].
    apply tab_ext. intros x y _ _. apply array_alpha_value; [lia | exact Hn].
  - apply create_squircle_mask_grid. exact Hn.
Qed.

(** ** The mask generator *)

Lemma squircle_grid_shape (size : nat) (smoothness : Z) :
  length (squircle_grid size smoothness) = size
  /\ Forall (fun row => length row = size) (squircle_grid size smoothness).
Proof. unfold squircle_grid. split; [apply tab_length | apply tab_rows]. Qed.

Lemma getpixel_squircle_grid (size : nat) (smoothness : Z) (x y : nat) :
  x < size -> y < size ->
  getpixel (squircle_grid size smoothness) x y
  = Some (pixel_alpha (squircle_value size smoothness x y)).
Proof. intros Hx Hy. unfold squircle_grid. apply getpixel_tab; assumption. Qed.

(** C1.  For every size > 0 and smoothness 5 the mask generator, scalar or
    vectorised, returns a size-by-size grid whose pixel (x, y), with
    nx = (x - size/2) / (size/2), ny = (y - size/2) / (size/2) and
    value = |nx|^5 + |ny|^5, has opacity 255 when value <= 1 - 0.02, the
    truncation of 255 * (1 - value) / 0.02 when 1 - 0.02 < value <= 1, and 0
    when value > 1. *)
Theorem mask_opacity_formula (numpy : bool) (size : nat) :
  0 < size ->
  exists mask : Band,
    create_squircle_mask size 5 = Ok mask
    /\ create_squircle_mask_fast numpy size 5 = Ok mask
    /\ length mask = size
    /\ Forall (fun row => length row = size) mask
    /\ forall x y : nat, x < size -> y < size ->
         let nx := ((float_of_nat x - float_of_nat size / 2) / (float_of_nat size / 2))%Q in
         let ny := ((float_of_nat y - float_of_nat size / 2) / (float_of_nat size / 2))%Q in
         let value := (Qabs nx ^ 5 + Qabs ny ^ 5)%Q in
         exists opacity : Z,
           getpixel mask x y = Some opacity
           /\ ((value <= 1 - (2 # 100))%Q -> opacity = 255%Z)
           /\ ((1 - (2 # 100) < value)%Q -> (value <= 1)%Q ->
               opacity = int_of_float (255 * (1 - value) / (2 # 100))%Q)
           /\ ((1 < value)%Q -> opacity = 0%Z).
Proof.
  intros Hs. exists (squircle_grid size 5).
  split; [apply create_squircle_mask_grid; lia |].
  split; [apply create_squircle_mask_fast_grid; lia |].
  split; [apply squircle_grid_shape |].
  split; [apply squircle_grid_shape |].
  intros x y Hx Hy nx ny value.
  exists (pixel_alpha value). split.
  - apply getpixel_squircle_grid; assumption.
  - destruct (pixel_alpha_cases value) as [(H & ->) | [(H & ->) | (H & ->)]];
      unfold edge_width in *.
    + repeat split; intros; try reflexivity; lra.
    + split; [| split].
      * intros Hv. apply int_of_float_Z. rewrite ramp_eq.
        change (inject_Z 255) with 255%Q. lra.
      * intros _ _. apply int_of_float_comp. field.
      * intros Hv. lra.
    + repeat split; intros; try reflexivity; lra.
Qed.

Lemma mask_opacity_formula_witness :
  0 < 2
  /\ exists mask : Band,
       create_squircle_mask 2 5 = Ok mask
       /\ create_squircle_mask_fast true 2 5 = Ok mask
       /\ length mask = 2.
Proof.
  split; [lia |].
  destruct (mask_opacity_formula true 2 ltac:(lia)) as (mask & H1 & H2 & H3 & _).
  exists mask. auto.
Defined.

(** Outside the positive smoothness the generator is written for, the two
    implementations can part: on a 2 by 2 mask with smoothness -1 the scalar
    loop raises ZeroDivisionError at the pixel whose nx is 0, while the array
    code returns an all-zero mask. *)
Lemma fast_mask_differs_for_negative_smoothness :
  create_squircle_mask 2 (-1) = Raise ZeroDivisionError
  /\ create_squircle_mask_fast true 2 (-1) = Ok [[0; 0]; [0; 0]]%Z
  /\ create_squircle_mask_fast true 2 (-1) <> create_squircle_mask 2 (-1).
Proof.
  split; [vm_compute; reflexivity |].
  split; [vm_compute; reflexivity |].
  vm_compute. discriminate.
Qed.

(** ** The geometry of the superellipse value *)

Lemma float_of_nat_sub (n x : nat) :
  x <= n -> (float_of_nat (n - x) == float_of_nat n - float_of_nat x)%Q.
Proof.
  intros H. unfold float_of_nat. rewrite Nat2Z.inj_sub by exact H.
  unfold Z.sub. rewrite inject_Z_plus, inject_Z_opp. reflexivity.
Qed.

Lemma float_of_nat_pos (n : nat) : 0 < n -> (0 < float_of_nat n)%Q.
Proof.
  intros H. unfold float_of_nat. replace 0%Q with (inject_Z 0) by reflexivity.
  rewrite <- Zlt_Qlt. lia.
Qed.

Lemma float_of_nat_le (n m : nat) : n <= m -> (float_of_nat n <= float_of_nat m)%Q.
Proof. intros H. unfold float_of_nat. rewrite <- Zle_Qle. lia. Qed.

Lemma float_of_nat_double (n : nat) : (float_of_nat (2 * n) == 2 * float_of_nat n)%Q.
Proof.
  unfold float_of_nat. rewrite Nat2Z.inj_mul, inject_Z_mult. reflexivity.
Qed.

Lemma pow5_eq (a : Q) : (a ^ 5 == a * a * (a * a) * a)%Q.
Proof. simpl. ring. Qed.

Lemma pow5_mono (a b : Q) : (0 <= a)%Q -> (a <= b)%Q -> (a ^ 5 <= b ^ 5)%Q.
Proof.
  intros H0 Hab. rewrite !pow5_eq.
  assert (H2 : (0 <= a * a <= b * b)%Q).
  { split; [apply Qmult_le_0_compat; exact H0 |].
    apply Qmult_le_compat_nonneg; split; assumption. }
  assert (H4 : (0 <= a * a * (a * a) <= b * b * (b * b))%Q).
  { split; [apply Qmult_le_0_compat; apply H2 |].
    apply Qmult_le_compat_nonneg; exact H2. }
  apply Qmult_le_compat_nonneg; [exact H4 | split; assumption].
Qed.

Lemma Qabs_div (a r : Q) : (Qabs (a / r) == Qabs a * Qabs (/ r))%Q.
Proof. unfold Qdiv. apply Qabs_Qmult. Qed.

(** The value grows with the distance from the centre in each coordinate. *)
Lemma squircle_value_mono (size : nat) (x y x' y' : nat) :
  (Qabs (float_of_nat x - float_of_nat size / 2)
   <= Qabs (float_of_nat x' - float_of_nat size / 2))%Q ->
  (Qabs (float_of_nat y - float_of_nat size / 2)
   <= Qabs (float_of_nat y' - float_of_nat size / 2))%Q ->
  (squircle_value size 5 x y <= squircle_value size 5 x' y')%Q.
Proof.
  intros Hx Hy. unfold squircle_value. cbv zeta.
  rewrite !Qabs_div.
  apply Qplus_le_compat; apply pow5_mono.
  - apply Qmult_le_0_compat; apply Qabs_nonneg.
  - apply Qmult_le_compat_r; [exact Hx | apply Qabs_nonneg].
  - apply Qmult_le_0_compat; apply Qabs_nonneg.
  - apply Qmult_le_compat_r; [exact Hy | apply Qabs_nonneg].
Qed.

Lemma squircle_value_transpose (size : nat) (smoothness : Z) (x y : nat) :
  (squircle_value size smoothness x y == squircle_value size smoothness y x)%Q.
Proof. unfold squircle_value. cbv zeta. apply Qplus_comm. Qed.

Lemma abs_offset_reflect (size x : nat) :
  x <= size ->
  (Qabs ((float_of_nat (size - x) - float_of_nat size / 2) / (float_of_nat size / 2))
   == Qabs ((float_of_nat x - float_of_nat size / 2) / (float_of_nat size / 2)))%Q.
Proof.
  intros Hx. rewrite <- Qabs_opp. apply Qabs_wd.
  rewrite (float_of_nat_sub size x Hx).
  set (h := (float_of_nat size / 2)%Q).
  assert (Hh : (float_of_nat size == 2 * h)%Q) by (unfold h; field).
  rewrite Hh. unfold Qdiv. ring.
Qed.

Lemma squircle_value_reflect_x (size : nat) (smoothness : Z) (x y : nat) :
  x <= size ->
  (squircle_value size smoothness (size - x) y == squircle_value size smoothness x y)%Q.
Proof.
  intros Hx. unfold squircle_value. cbv zeta.
  rewrite (abs_offset_reflect size x Hx). reflexivity.
Qed.

Lemma squircle_value_reflect_y (size : nat) (smoothness : Z) (x y : nat) :
  y <= size ->
  (squircle_value size smoothness x (size - y) == squircle_value size smoothness x y)%Q.
Proof.
  intros Hy. unfold squircle_value. cbv zeta.
  rewrite (abs_offset_reflect size y Hy). reflexivity.
Qed.

Lemma squircle_value_corner (size : nat) :
  0 < size -> (squircle_value size 5 0 0 == 2)%Q.
Proof.
  intros Hs. unfold squircle_value. cbv zeta.
  assert (Hpos : (0 < float_of_nat size)%Q) by (apply float_of_nat_pos; exact Hs).
  assert (E : ((float_of_nat 0 - float_of_nat size / 2) / (float_of_nat size / 2) == - (1))%Q).
  { unfold float_of_nat at 1. simpl inject_Z. field. lra. }
  rewrite E. reflexivity.
Qed.

Lemma centre_offset_small (size : nat) :
  2 <= size ->
  (Qabs ((float_of_nat (size / 2) - float_of_nat size / 2) / (float_of_nat size / 2))
   <= 1 # 2)%Q.
Proof.
  intros Hs.
  assert (H2 : (2 <= float_of_nat size)%Q).
  { change 2%Q with (float_of_nat 2). apply float_of_nat_le. exact Hs. }
  assert (Hlo : (2 * float_of_nat (size / 2) <= float_of_nat size)%Q).
  { rewrite <- float_of_nat_double. apply float_of_nat_le.
    apply Nat.Div0.mul_div_le. }
  assert (Hhi : (float_of_nat size <= 2 * float_of_nat (size / 2) + 1)%Q).
  { change 1%Q with (float_of_nat 1). rewrite <- float_of_nat_double.
    unfold float_of_nat. rewrite <- inject_Z_plus, <- Zle_Qle.
    pose proof (Nat.div_mod_eq size 2) as Hd.
    pose proof (Nat.mod_upper_bound size 2 ltac:(lia)) as Hm. lia. }
  set (h := (float_of_nat size / 2)%Q) in *.
  assert (Hh : (float_of_nat size == 2 * h)%Q) by (unfold h; field).
  rewrite Hh in H2, Hlo, Hhi.
  apply Qabs_Qle_condition. split.
  - apply Qle_shift_div_l; lra.
  - apply Qle_shift_div_r; lra.
Qed.

Lemma squircle_value_centre (size : nat) :
  2 <= size -> (squircle_value size 5 (size / 2) (size / 2) <= 1 # 16)%Q.
Proof.
  intros Hs. unfold squircle_value. cbv zeta.
  pose proof (centre_offset_small size Hs) as Hc.
  assert (H5 : (Qabs ((float_of_nat (size / 2) - float_of_nat size / 2)
                      / (float_of_nat size / 2)) ^ 5 <= (1 # 2) ^ 5)%Q).
  { apply pow5_mono; [apply Qabs_nonneg | exact Hc]. }
  change ((1 # 2) ^ 5)%Q with (1 # 32)%Q in H5. lra.
Qed.

(** ** Symmetry, centre and corner, monotonicity *)

Lemma generated_mask_is_grid (numpy : bool) (size : nat) (mask : Band) :
  create_squircle_mask size 5 = Ok mask
  \/ create_squircle_mask_fast numpy size 5 = Ok mask ->
  mask = squircle_grid size 5.
Proof.
  intros [H | H].
  - rewrite create_squircle_mask_grid in H by lia. congruence.
  - rewrite create_squircle_mask_fast_grid in H by lia. congruence.
Qed.

(** C4, as stated, fails: on the 2 by 2 mask the pixel (1, 1) is 255 while
    its images under the horizontal mirror, the vertical mirror and the
    quarter turn of the pixel grid are 0. *)
Lemma mask_not_symmetric_on_pixel_grid :
  ~ (forall (size : nat) (mask : Band) (x y : nat),
       create_squircle_mask size 5 = Ok mask -> x < size -> y < size ->
       getpixel mask x y = getpixel mask (size - 1 - x) y
       /\ getpixel mask x y = getpixel mask x (size - 1 - y)
       /\ getpixel mask x y = getpixel mask (size - 1 - y) x).
Proof.
  intros H.
  destruct (H 2 [[0; 0]; [0; 255]]%Z 1 1) as (Hh & _); [vm_compute; reflexivity | lia | lia |].
  vm_compute in Hh. discriminate.
Qed.

(** C4, as the code has it.  For every size and smoothness 5 the mask,
    scalar or vectorised, is invariant under transposition, and under the
    mirrors x -> size - x and y -> size - y and the quarter turn
    (x, y) -> (size - y, x) about the point (size/2, size/2) that the code
    takes as centre, for the pixels whose image lies in the grid (x >= 1,
    respectively y >= 1). *)
Theorem mask_symmetric_about_centre (numpy : bool) (size : nat) (mask : Band) (x y : nat) :
  create_squircle_mask size 5 = Ok mask
  \/ create_squircle_mask_fast numpy size 5 = Ok mask ->
  x < size -> y < size ->
  getpixel mask x y = getpixel mask y x
  /\ (1 <= x -> getpixel mask x y = getpixel mask (size - x) y)
  /\ (1 <= y -> getpixel mask x y = getpixel mask x (size - y))
  /\ (1 <= y -> getpixel mask x y = getpixel mask (size - y) x).
Proof.
  intros Hm Hx Hy. rewrite (generated_mask_is_grid numpy size mask Hm).
  rewrite (getpixel_squircle_grid size 5 x y Hx Hy).
  split; [| split; [| split]].
  - rewrite (getpixel_squircle_grid size 5 y x Hy Hx). f_equal.
    apply pixel_alpha_comp. apply squircle_value_transpose.
  - intros H1. rewrite getpixel_squircle_grid by lia. f_equal.
    apply pixel_alpha_comp. symmetry. apply squircle_value_reflect_x. lia.
  - intros H1. rewrite getpixel_squircle_grid by lia. f_equal.
    apply pixel_alpha_comp. symmetry. apply squircle_value_reflect_y. lia.
  - intros H1. rewrite getpixel_squircle_grid by lia. f_equal.
    apply pixel_alpha_comp.
    rewrite squircle_value_reflect_x by lia. apply squircle_value_transpose.
Qed.

Lemma mask_symmetric_about_centre_witness :
  getpixel [[0; 0; 0; 0]; [0; 255; 255; 255]; [0; 255; 255; 255]; [0; 255; 255; 255]]%Z 1 2
  = getpixel [[0; 0; 0; 0]; [0; 255; 255; 255]; [0; 255; 255; 255]; [0; 255; 255; 255]]%Z 2 1.
Proof.
  refine (proj1 (mask_symmetric_about_centre true 4 _ 1 2 _ _ _)).
  - left. vm_compute. reflexivity.
  - lia.
  - lia.
Defined.

(** C5, as stated, fails for size 1: the only pixel is both centre and
    corner, its superellipse value is 2, and its opacity is 0, not 255. *)
Lemma centre_pixel_of_size_1_is_transparent :
  ~ (forall (size : nat) (mask : Band),
       0 < size -> create_squircle_mask size 5 = Ok mask ->
       getpixel mask (size / 2) (size / 2) = Some 255%Z
       /\ getpixel mask 0 0 = Some 0%Z).
Proof.
  intros H.
  destruct (H 1 [[0]]%Z) as (Hc & _); [lia | vm_compute; reflexivity |].
  vm_compute in Hc. discriminate.
Qed.

(** C5, as the code has it.  For every size > 0 with smoothness 5 the corner
    pixel (0, 0) of the mask is 0, and for every size >= 2 the centre pixel
    (size/2, size/2) is 255. *)
Theorem mask_centre_and_corner (size : nat) (mask : Band) :
  0 < size ->
  create_squircle_mask size 5 = Ok mask ->
  getpixel mask 0 0 = Some 0%Z
  /\ (2 <= size -> getpixel mask (size / 2) (size / 2) = Some 255%Z).
Proof.
  intros Hs Hm.
  rewrite (generated_mask_is_grid true size mask (or_introl Hm)). split.
  - rewrite getpixel_squircle_grid by lia. f_equal.
    rewrite (pixel_alpha_comp _ 2 (squircle_value_corner size Hs)). reflexivity.
  - intros H2.
    assert (Hc : size / 2 < size) by (apply Nat.div_lt; lia).
    rewrite getpixel_squircle_grid by exact Hc. f_equal.
    pose proof (squircle_value_centre size H2) as Hv.
    destruct (pixel_alpha_cases (squircle_value size 5 (size / 2) (size / 2)))
      as [(_ & ->) | [(H & _) | (H & _)]]; [reflexivity | |];
      unfold edge_width in H; lra.
Qed.

Lemma mask_centre_and_corner_witness :
  getpixel [[0; 0]; [0; 255]]%Z 0 0 = Some 0%Z
  /\ (2 <= 2 -> getpixel [[0; 0]; [0; 255]]%Z (2 / 2) (2 / 2) = Some 255%Z).
Proof.
  apply (mask_centre_and_corner 2).
  - lia.
  - vm_compute. reflexivity.
Defined.

(** C8.  For every size > 0 with smoothness 5, along any ray from the centre
    (size/2, size/2) of the mask outward the opacity is non-increasing: if
    the pixels (x, y) and (x', y') lie on the ray of direction (dx, dy) at
    parameters t <= t', the opacity at (x', y') is at most that at (x, y). *)
Theorem mask_monotone_along_rays (size : nat) (mask : Band)
  (x y x' y' : nat) (dx dy t t' : Q) :
  0 < size ->
  create_squircle_mask size 5 = Ok mask ->
  x < size -> y < size -> x' < size -> y' < size ->
  (0 <= t)%Q -> (t <= t')%Q ->
  (float_of_nat x - float_of_nat size / 2 == t * dx)%Q ->
  (float_of_nat y - float_of_nat size / 2 == t * dy)%Q ->
  (float_of_nat x' - float_of_nat size / 2 == t' * dx)%Q ->
  (float_of_nat y' - float_of_nat size / 2 == t' * dy)%Q ->
  exists p p' : Z,
    getpixel mask x y = Some p /\ getpixel mask x' y' = Some p' /\ (p' <= p)%Z.
Proof.
  intros Hs Hm Hx Hy Hx' Hy' Ht Htt Ex Ey Ex' Ey'.
  rewrite (generated_mask_is_grid true size mask (or_introl Hm)).
  exists (pixel_alpha (squircle_value size 5 x y)),
         (pixel_alpha (squircle_value size 5 x' y')).
  split; [apply getpixel_squircle_grid; assumption |].
  split; [apply getpixel_squircle_grid; assumption |].
  apply pixel_alpha_antitone. apply squircle_value_mono.
  - rewrite Ex, Ex', !Qabs_Qmult, (Qabs_pos t), (Qabs_pos t') by lra.
    apply Qmult_le_compat_r; [exact Htt | apply Qabs_nonneg].
  - rewrite Ey, Ey', !Qabs_Qmult, (Qabs_pos t), (Qabs_pos t') by lra.
    apply Qmult_le_compat_r; [exact Htt | apply Qabs_nonneg].
Qed.

Lemma mask_monotone_along_rays_witness :
  exists p p' : Z,
    getpixel [[0; 0; 0; 0]; [0; 255; 255; 255]; [0; 255; 255; 255]; [0; 255; 255; 255]]%Z 2 2
    = Some p
    /\ getpixel [[0; 0; 0; 0]; [0; 255; 255; 255]; [0; 255; 255; 255]; [0; 255; 255; 255]]%Z 0 0
       = Some p'
    /\ (p' <= p)%Z.
Proof.
  apply (mask_monotone_along_rays 4 _ 2 2 0 0 (- (1)) (- (1)) 0 2)%Q.
  - lia.
  - vm_compute. reflexivity.
  - lia.
  - lia.
  - lia.
  - lia.
  - vm_compute. discriminate.
  - vm_compute. discriminate.
  - vm_compute. reflexivity.
  - vm_compute. reflexivity.
  - vm_compute. reflexivity.
  - vm_compute. reflexivity.
Defined.

(** ** Bands as grids *)

Lemma row_as_map {A : Type} (d : A) (row : list A) :
  row = map (fun x => nth x row d) (seq 0 (length row)).
Proof.
  apply list_eq. intros i. rewrite list_lookup_fmap.
  destruct (decide (i < length row)) as [Hi | Hi].
  - rewrite lookup_seq_lt by exact Hi. simpl.
    destruct (lookup_lt_is_Some_2 row i Hi) as [v Hv].
    rewrite Hv. f_equal. rewrite nth_lookup, Hv. reflexivity.
  - rewrite lookup_seq_ge by lia. rewrite lookup_ge_None_2 by lia. reflexivity.
Qed.

Lemma wf_band_row (w h : nat) (b : Band) (y : nat) :
  wf_band w h b -> y < h ->
  length (nth y b []) = w /\ Forall (fun v => 0 <= v <= 255)%Z (nth y b []).
Proof.
  intros [Hl Hr] Hy.
  destruct (lookup_lt_is_Some_2 b y ltac:(lia)) as [row Hrow].
  rewrite nth_lookup, Hrow. simpl.
  exact (proj1 (Forall_lookup _ b) Hr y row Hrow).
Qed.

Lemma band_as_tab (w h : nat) (b : Band) :
  wf_band w h b -> b = tab h w (pixel_at b).
Proof.
  intros Hwf. pose proof Hwf as [Hl _].
  rewrite (row_as_map [] b) at 1. rewrite Hl. unfold tab.
  apply map_ext_in. intros y Hy. apply in_seq in Hy.
  destruct (wf_band_row w h b y Hwf ltac:(lia)) as [Hw _].
  rewrite (row_as_map 0%Z (nth y b [])) at 1. rewrite Hw. reflexivity.
Qed.

Lemma pixel_at_range (w h : nat) (b : Band) (x y : nat) :
  wf_band w h b -> x < w -> y < h -> (0 <= pixel_at b y x <= 255)%Z.
Proof.
  intros Hwf Hx Hy.
  destruct (wf_band_row w h b y Hwf Hy) as [Hw Hv].
  unfold pixel_at.
  destruct (lookup_lt_is_Some_2 (nth y b []) x ltac:(lia)) as [v Hx'].
  rewrite (nth_lookup (nth y b []) x), Hx'. simpl.
  exact (proj1 (Forall_lookup _ _) Hv x v Hx').
Qed.

Lemma getpixel_pixel_at (w h : nat) (b : Band) (x y : nat) :
  wf_band w h b -> x < w -> y < h -> getpixel b x y = Some (pixel_at b y x).
Proof.
  intros Hwf Hx Hy. rewrite (band_as_tab w h b Hwf) at 1.
  apply getpixel_tab; assumption.
Qed.

Lemma band_size_tab (n : nat) (g : nat -> nat -> Z) :
  band_size (tab n n g) = (n, n).
Proof.
  unfold band_size, band_height, band_width. rewrite tab_length.
  destruct n as [|k]; [reflexivity |].
  unfold tab. simpl. rewrite length_map, length_seq. reflexivity.
Qed.

Lemma band_size_wf (n : nat) (b : Band) : wf_band n n b -> band_size b = (n, n).
Proof.
  intros Hwf. rewrite (band_as_tab n n b Hwf). apply band_size_tab.
Qed.

Lemma wf_band_tab (w h : nat) (g : nat -> nat -> Z) :
  (forall x y, x < w -> y < h -> (0 <= g y x <= 255)%Z) -> wf_band w h (tab h w g).
Proof.
  intros Hg. split; [apply tab_length |].
  unfold tab. apply Forall_forall. intros row Hrow.
  apply list_elem_of_fmap in Hrow. destruct Hrow as (y & -> & Hy).
  apply elem_of_seq in Hy.
  split; [rewrite length_map, length_seq; reflexivity |].
  apply Forall_forall. intros v Hv.
  apply list_elem_of_fmap in Hv. destruct Hv as (x & -> & Hx).
  apply elem_of_seq in Hx. apply Hg; lia.
Qed.

Lemma zip_with3_tab {A B C D : Type} (f : A -> B -> C -> D) (h w : nat)
  (g1 : nat -> nat -> A) (g2 : nat -> nat -> B) (g3 : nat -> nat -> C) :
  zip_with3 (zip_with3 f) (tab h w g1) (tab h w g2) (tab h w g3)
  = tab h w (fun y x => f (g1 y x) (g2 y x) (g3 y x)).
Proof.
  unfold zip_with3, tab.
  rewrite (zip_with_map_same pair), zip_with_map_same.
  apply map_ext. intros y. cbn [fst snd].
  rewrite (zip_with_map_same pair), zip_with_map_same. reflexivity.
Qed.

(** ** The mask applicator *)

Lemma DIV255_div (v : Z) : DIV255 v = (((v + 128) / 256 + (v + 128)) / 256)%Z.
Proof. unfold DIV255. cbv zeta. rewrite !Z.shiftr_div_pow2 by lia. reflexivity. Qed.

(** Pillow's blend against a zero background: the exactly rounded product
    [a * m / 255], never above [a]. *)
Lemma BLEND_zero_background (a m : Z) :
  (0 <= a <= 255)%Z -> (0 <= m <= 255)%Z ->
  (BLEND m 0 a = DIV255 (a * m)
   /\ 0 <= BLEND m 0 a <= a
   /\ 255 * BLEND m 0 a - 127 <= a * m <= 255 * BLEND m 0 a + 127)%Z.
Proof.
  intros Ha Hm. unfold BLEND. rewrite Z.mul_0_l, Z.add_0_l.
  assert (Hv : (0 <= a * m <= 255 * a)%Z) by nia.
  assert (Hr : (0 <= DIV255 (a * m) <= a)%Z).
  { rewrite DIV255_div. revert Hv. generalize (a * m)%Z. intros v Hv.
    Z.div_mod_to_equations. lia. }
  rewrite Z.mod_small by lia.
  split; [reflexivity |]. split; [exact Hr |].
  rewrite DIV255_div. revert Hv. generalize (a * m)%Z. intros v Hv.
  Z.div_mod_to_equations. lia.
Qed.

Lemma BLEND_opaque (a : Z) : (0 <= a <= 255)%Z -> BLEND 255 0 a = a.
Proof.
  intros Ha. destruct (BLEND_zero_background a 255 Ha ltac:(lia)) as (_ & _ & H).
  lia.
Qed.

Lemma BLEND_transparent (a : Z) : (0 <= a <= 255)%Z -> BLEND 0 0 a = 0%Z.
Proof.
  intros Ha. destruct (BLEND_zero_background a 0 Ha ltac:(lia)) as (_ & H & H').
  lia.
Qed.

Lemma crop_band_wf (w h n left top : nat) (b : Band) :
  wf_band w h b -> left + n <= w -> top + n <= h ->
  wf_band n n (crop_band left top (left + n) (top + n) b).
Proof.
  intros [Hl Hr] Hw Hh. unfold crop_band.
  replace (left + n - left) with n by lia.
  replace (top + n - top) with n by lia.
  split.
  - rewrite length_map, length_take, length_drop. lia.
  - apply Forall_fmap. apply Forall_take, Forall_drop.
    eapply Forall_impl; [exact Hr |].
    intros row [Hrow Hv]. simpl. split.
    + rewrite length_take, length_drop. lia.
    + apply Forall_take, Forall_drop. exact Hv.
Qed.

Lemma opaque_alpha_wf (w h : nat) (b : Band) :
  wf_band w h b -> wf_band w h (map (map (fun _ => 255%Z)) b).
Proof.
  intros [Hl Hr]. split; [rewrite length_map; exact Hl |].
  apply Forall_fmap. eapply Forall_impl; [exact Hr |].
  intros row [Hrow _]. simpl. split; [rewrite length_map; exact Hrow |].
  apply Forall_fmap. apply Forall_forall. intros v _. simpl. lia.
Qed.

Lemma convert_RGBA_wf (n : nat) (im : Image) :
  Forall (wf_band n n) (split im) ->
  exists r g b a : Band,
    (if negb (is_RGBA im) then convert_RGBA im else im) = ImRGBA r g b a
    /\ wf_band n n r /\ wf_band n n g /\ wf_band n n b /\ wf_band n n a.
Proof.
  intros Hwf. destruct im as [l | r g b | r g b a]; simpl in *.
  - apply Forall_cons in Hwf as [Hl _].
    exists l, l, l, (map (map (fun _ => 255%Z)) l).
    split; [reflexivity |]. split; [exact Hl |]. split; [exact Hl |].
    split; [exact Hl |]. apply opaque_alpha_wf, Hl.
  - apply Forall_cons in Hwf as [Hr Hwf]. apply Forall_cons in Hwf as [Hg Hwf].
    apply Forall_cons in Hwf as [Hb _].
    exists r, g, b, (map (map (fun _ => 255%Z)) r).
    split; [reflexivity |]. split; [exact Hr |]. split; [exact Hg |].
    split; [exact Hb |]. apply opaque_alpha_wf, Hr.
  - apply Forall_cons in Hwf as [Hr Hwf]. apply Forall_cons in Hwf as [Hg Hwf].
    apply Forall_cons in Hwf as [Hb Hwf]. apply Forall_cons in Hwf as [Ha _].
    exists r, g, b, a.
    split; [reflexivity |]. split; [exact Hr |]. split; [exact Hg |].
    split; [exact Hb |]. exact Ha.
Qed.

Lemma split_map_bands (f : Band -> Band) (im : Image) :
  split (map_bands f im) = map f (split im).
Proof. destruct im; reflexivity. Qed.

(** After the crop and the conversion the source is an RGBA image whose
    bands are squares of side [min width height]. *)
Lemma prepared_source_wf (im : Image) (w h : nat) :
  wf_image im -> image_size im = (w, h) ->
  exists r g b a : Band,
    prepared_source im = ImRGBA r g b a
    /\ wf_band (Nat.min w h) (Nat.min w h) r /\ wf_band (Nat.min w h) (Nat.min w h) g
    /\ wf_band (Nat.min w h) (Nat.min w h) b /\ wf_band (Nat.min w h) (Nat.min w h) a.
Proof.
  intros Hwf Hsize. unfold wf_image in Hwf. unfold prepared_source.
  rewrite Hsize in *. set (n := Nat.min w h).
  destruct (decide (w <> h)) as [Hne | He].
  - apply convert_RGBA_wf. unfold crop. rewrite split_map_bands.
    apply Forall_fmap. eapply Forall_impl; [exact Hwf |].
    intros band Hband. simpl.
    assert (Hw : (w - n) / 2 + n <= w).
    { pose proof (Nat.Div0.div_le_upper_bound (w - n) 2 (w - n)). lia. }
    assert (Hh : (h - n) / 2 + n <= h).
    { pose proof (Nat.Div0.div_le_upper_bound (h - n) 2 (h - n)). lia. }
    apply (crop_band_wf w h); assumption.
  - assert (E : w = h) by (destruct (decide (w = h)); [assumption | contradiction]).
    subst h. assert (En : n = w) by (unfold n; lia). rewrite En.
    apply convert_RGBA_wf. exact Hwf.
Qed.

Lemma apply_squircle_mask_unfold (numpy : bool) (im : Image) (smoothness : Z) (w h : nat) :
  image_size im = (w, h) ->
  apply_squircle_mask numpy im smoothness
  = (mask ← create_squircle_mask_fast numpy (Nat.min w h) smoothness;
     match split (prepared_source im) with
     | [r; g; b; a] =>
         a' ← composite a (Image_new_L (Nat.min w h) (Nat.min w h) 0) mask;
         merge_RGBA r g b a'
     | _ => Raise ValueError
     end).
Proof.
  intros Hsize. unfold apply_squircle_mask, prepared_source. rewrite Hsize.
  reflexivity.
Qed.

Lemma composite_with_mask (n : nat) (alpha : Band) :
  wf_band n n alpha ->
  composite alpha (Image_new_L n n 0) (squircle_grid n 5) = Ok (masked_alpha n alpha).
Proof.
  intros Ha. unfold composite.
  assert (Ez : Image_new_L n n 0 = tab n n (fun _ _ => 0%Z))
    by (unfold Image_new_L; apply replicate_tab).
  rewrite decide_True.
  - f_equal. rewrite (band_as_tab n n alpha Ha) at 1. rewrite Ez.
    unfold squircle_grid. rewrite zip_with3_tab. reflexivity.
  - rewrite Ez, (band_size_wf n alpha Ha). unfold squircle_grid.
    rewrite !band_size_tab. split; reflexivity.
Qed.

Lemma apply_squircle_mask_result (numpy : bool) (im : Image) (w h : nat) :
  wf_image im -> image_size im = (w, h) ->
  exists r g b a : Band,
    prepared_source im = ImRGBA r g b a
    /\ wf_band (Nat.min w h) (Nat.min w h) r
    /\ wf_band (Nat.min w h) (Nat.min w h) a
    /\ apply_squircle_mask numpy im 5
       = Ok (ImRGBA r g b (masked_alpha (Nat.min w h) a)).
Proof.
  intros Hwf Hsize.
  destruct (prepared_source_wf im w h Hwf Hsize) as (r & g & b & a & Hp & Hr & Hg & Hb & Ha).
  exists r, g, b, a.
  split; [exact Hp |]. split; [exact Hr |]. split; [exact Ha |].
  rewrite (apply_squircle_mask_unfold numpy im 5 w h Hsize).
  rewrite create_squircle_mask_fast_grid by lia. cbn [mbind result_bind].
  rewrite Hp. cbn [split].
  rewrite (composite_with_mask _ a Ha). cbn [mbind result_bind].
  unfold merge_RGBA. rewrite decide_True; [reflexivity |].
  rewrite (band_size_wf _ r Hr), (band_size_wf _ g Hg), (band_size_wf _ b Hb).
  unfold masked_alpha. rewrite band_size_tab. repeat split; reflexivity.
Qed.

Lemma getpixel_masked_alpha (n : nat) (alpha : Band) (x y : nat) :
  x < n -> y < n ->
  getpixel (masked_alpha n alpha) x y
  = Some (BLEND (pixel_alpha (squircle_value n 5 x y)) 0 (pixel_at alpha y x)).
Proof. intros Hx Hy. unfold masked_alpha. apply getpixel_tab; assumption. Qed.

Lemma sample_image_wf : wf_image sample_image.
Proof.
  unfold wf_image, sample_image. simpl.
  repeat (apply Forall_cons; split);
    try apply Forall_nil; try (split; [reflexivity |]);
    repeat (apply Forall_cons; split); try apply Forall_nil;
    try (split; [reflexivity |]);
    repeat (apply Forall_cons; split); try apply Forall_nil; lia.
Qed.

Lemma sample_square_wf : wf_image sample_square.
Proof.
  unfold wf_image, sample_square. simpl.
  repeat (apply Forall_cons; split);
    try apply Forall_nil; try (split; [reflexivity |]);
    repeat (apply Forall_cons; split); try apply Forall_nil;
    try (split; [reflexivity |]);
    repeat (apply Forall_cons; split); try apply Forall_nil; lia.
Qed.

Example apply_sample_square :
  apply_squircle_mask true sample_square 5
  = Ok (ImRGBA [[10; 20]; [30; 40]]%Z [[11; 21]; [31; 41]]%Z
               [[12; 22]; [32; 42]]%Z [[0; 0]; [0; 200]]%Z).
Proof. vm_compute. reflexivity. Qed.

Example apply_sample_image :
  apply_squircle_mask false sample_image 5
  = Ok (ImRGBA [[10; 20]; [40; 50]]%Z [[11; 21]; [41; 51]]%Z
               [[12; 22]; [42; 52]]%Z [[0; 0]; [0; 255]]%Z).
Proof. vm_compute. reflexivity. Qed.

(** C2.  For every input image the applicator succeeds, and its alpha band
    is the pointwise composite of the alpha of the cropped, RGBA-converted
    source against zero with the mask as blend weight: the source alpha where
    the mask is 255, 0 where the mask is 0, and in general the source alpha
    scaled by mask/255, rounded to the nearest integer. *)
Theorem masked_alpha_is_composite (numpy : bool) (image : Image) (width height : nat) :
  wf_image image ->
  image_size image = (width, height) ->
  exists (out : Image) (alpha alpha' mask : Band),
    apply_squircle_mask numpy image 5 = Ok out
    /\ alpha_band (prepared_source image) = Some alpha
    /\ alpha_band out = Some alpha'
    /\ create_squircle_mask_fast numpy (Nat.min width height) 5 = Ok mask
    /\ forall x y : nat, x < Nat.min width height -> y < Nat.min width height ->
         exists a m a' : Z,
           getpixel alpha x y = Some a
           /\ getpixel mask x y = Some m
           /\ getpixel alpha' x y = Some a'
           /\ a' = BLEND m 0 a
           /\ (m = 255 -> a' = a)%Z
           /\ (m = 0 -> a' = 0)%Z
           /\ (255 * a' - 127 <= a * m <= 255 * a' + 127)%Z.
Proof.
  intros Hwf Hsize.
  destruct (apply_squircle_mask_result numpy image width height Hwf Hsize)
    as (r & g & b & a & Hp & _ & Ha & Hout).
  set (n := Nat.min width height) in *.
  exists (ImRGBA r g b (masked_alpha n a)), a, (masked_alpha n a), (squircle_grid n 5).
  split; [exact Hout |].
  split; [rewrite Hp; reflexivity |].
  split; [reflexivity |].
  split; [apply create_squircle_mask_fast_grid; lia |].
  intros x y Hx Hy.
  pose proof (pixel_at_range n n a x y Ha Hx Hy) as Hra.
  pose proof (pixel_alpha_range (squircle_value n 5 x y)) as Hrm.
  exists (pixel_at a y x), (pixel_alpha (squircle_value n 5 x y)),
         (BLEND (pixel_alpha (squircle_value n 5 x y)) 0 (pixel_at a y x)).
  split; [apply (getpixel_pixel_at n n); assumption |].
  split; [apply getpixel_squircle_grid; assumption |].
  split; [apply getpixel_masked_alpha; assumption |].
  split; [reflexivity |].
  split; [intros ->; apply BLEND_opaque; exact Hra |].
  split; [intros ->; apply BLEND_transparent; exact Hra |].
  apply BLEND_zero_background; assumption.
Qed.

Lemma masked_alpha_is_composite_witness :
  exists out : Image, apply_squircle_mask true sample_square 5 = Ok out.
Proof.
  destruct (masked_alpha_is_composite true sample_square 2 2 sample_square_wf eq_refl)
    as (out & _ & _ & _ & Hout & _).
  exists out. exact Hout.
Defined.

(** C9.  For every already-square input image the applicator returns an
    image of the same width and height whose R, G and B bands are those of
    the RGBA-converted input; only the alpha band is new. *)
Theorem square_input_keeps_size_and_colour (numpy : bool) (image : Image) (n : nat) :
  wf_image image ->
  image_size image = (n, n) ->
  exists out : Image,
    apply_squircle_mask numpy image 5 = Ok out
    /\ image_size out = image_size image
    /\ colour_bands out = colour_bands (convert_RGBA image).
Proof.
  intros Hwf Hsize.
  destruct (apply_squircle_mask_result numpy image n n Hwf Hsize)
    as (r & g & b & a & Hp & Hr & _ & Hout).
  rewrite Nat.min_id in *.
  exists (ImRGBA r g b (masked_alpha n a)).
  split; [exact Hout |].
  assert (Hc : prepared_source image = convert_RGBA image).
  { unfold prepared_source. rewrite Hsize.
    destruct (decide (n <> n)) as [Hne | _]; [contradiction |].
    destruct image; reflexivity. }
  split.
  - rewrite Hsize. unfold image_size. simpl. apply band_size_wf. exact Hr.
  - rewrite <- Hc, Hp. reflexivity.
Qed.

Lemma square_input_keeps_size_and_colour_witness :
  exists out : Image,
    apply_squircle_mask true sample_square 5 = Ok out
    /\ image_size out = image_size sample_square
    /\ colour_bands out = colour_bands (convert_RGBA sample_square).
Proof.
  apply (square_input_keeps_size_and_colour true sample_square 2).
  - exact sample_square_wf.
  - reflexivity.
Defined.

(** C10.  For every input image and every pixel, the alpha the applicator
    writes is at most the alpha of the cropped, RGBA-converted source at that
    pixel. *)
Theorem masking_never_raises_alpha (numpy : bool) (image : Image) (width height : nat) :
  wf_image image ->
  image_size image = (width, height) ->
  exists (out : Image) (alpha alpha' : Band),
    apply_squircle_mask numpy image 5 = Ok out
    /\ alpha_band (prepared_source image) = Some alpha
    /\ alpha_band out = Some alpha'
    /\ forall x y : nat, x < Nat.min width height -> y < Nat.min width height ->
         exists a a' : Z,
           getpixel alpha x y = Some a
           /\ getpixel alpha' x y = Some a'
           /\ (0 <= a' <= a)%Z.
Proof.
  intros Hwf Hsize.
  destruct (apply_squircle_mask_result numpy image width height Hwf Hsize)
    as (r & g & b & a & Hp & _ & Ha & Hout).
  set (n := Nat.min width height) in *.
  exists (ImRGBA r g b (masked_alpha n a)), a, (masked_alpha n a).
  split; [exact Hout |].
  split; [rewrite Hp; reflexivity |].
  split; [reflexivity |].
  intros x y Hx Hy.
  pose proof (pixel_at_range n n a x y Ha Hx Hy) as Hra.
  pose proof (pixel_alpha_range (squircle_value n 5 x y)) as Hrm.
  exists (pixel_at a y x),
         (BLEND (pixel_alpha (squircle_value n 5 x y)) 0 (pixel_at a y x)).
  split; [apply (getpixel_pixel_at n n); assumption |].
  split; [apply getpixel_masked_alpha; assumption |].
  apply BLEND_zero_background; assumption.
Qed.

Lemma masking_never_raises_alpha_witness :
  exists out : Image, apply_squircle_mask false sample_image 5 = Ok out.
Proof.
  destruct (masking_never_raises_alpha false sample_image 3 2 sample_image_wf eq_refl)
    as (out & _ & _ & Hout & _).
  exists out. exact Hout.
Defined.

(** ** The emitter and the script *)

Lemma icon_sizes_catalogue :
  icon_sizes = map (fun '(base, scale) => (base, scale, icon_name base scale)) catalogue.
Proof. reflexivity. Qed.


Lemma fold_emit_icon (lanczos : Image -> nat * nat -> nat -> nat -> nat -> Z)
  (masked : Image) (output_dir : string) (entries : list (nat * nat * string)) :
  forall d : Disk,
    fold_left (emit_icon lanczos masked output_dir) entries d
    = mkDisk (dirs d)
        (files d
         ++ map (fun '(base, scale, name) =>
                   (path_join output_dir name,
                    resize lanczos masked (base * scale, base * scale))) entries).
Proof.
  induction entries as [|[[base scale] name] entries IH]; intros d.
  - simpl. rewrite app_nil_r. destruct d; reflexivity.
  - cbn [fold_left map]. rewrite IH. unfold emit_icon, save. cbn [dirs files].
    rewrite <- app_assoc. reflexivity.
Qed.

Lemma map_pair_zip {A B C : Type} (f : A -> B) (g : A -> C) (l : list A) :
  map (fun a => (f a, g a)) l = zip (map f l) (map g l).
Proof. induction l as [|a l IH]; simpl; [reflexivity | rewrite IH; reflexivity]. Qed.

Lemma generate_icon_set_ok (lanczos : Image -> nat * nat -> nat -> nat -> nat -> Z)
  (env : Env) (source_path output_dir : string) (d : Disk) (source masked : Image) :
  Image_open env source_path = Some source ->
  apply_squircle_mask (numpy env) source 5 = Ok masked ->
  generate_icon_set lanczos env source_path output_dir d
  = (Ok tt,
     mkDisk (dirs d ++ [output_dir])
       (files d ++ zip (emitted_paths output_dir) (emitted lanczos masked))).
Proof.
  intros Hopen Hmask. unfold generate_icon_set. rewrite Hopen, Hmask.
  rewrite fold_emit_icon. unfold mkdir. cbn [dirs files].
  rewrite icon_sizes_catalogue, map_map.
  unfold emitted_paths, emitted. rewrite <- map_pair_zip.
  reflexivity.
Qed.



Lemma first_existing_exists (env : Env) (l : list string) (p : string) :
  first_existing env l = Some p -> path_exists env p = true.
Proof.
  induction l as [|c l IH]; simpl; [discriminate |].
  destruct (path_exists env c) eqn:E; [| exact IH].
  intros H. injection H as <-. exact E.
Qed.

(** [main] either stops for want of a source or hands the resolved source to
    [generate_icon_set]. *)
Lemma main_cases (lanczos : Image -> nat * nat -> nat -> nat -> nat -> Z)
  (env : Env) (d : Disk) :
  match resolved_source env with
  | None => main lanczos env d = (Raise (SystemExit 1), d)
  | Some p => main lanczos env d = generate_icon_set lanczos env p (asset_dir env) d
  end.
Proof.
  unfold main, resolved_source.
  destruct (argv env) as [|a0 [|arg rest]].
  - destruct (first_existing env (candidates env)) as [p |] eqn:E; [| reflexivity].
    rewrite (first_existing_exists env _ p E). reflexivity.
  - destruct (first_existing env (candidates env)) as [p |] eqn:E; [| reflexivity].
    rewrite (first_existing_exists env _ p E). reflexivity.
  - destruct (path_exists env arg) eqn:E; reflexivity.
Qed.





(** ** Further facts about the mask *)

Lemma abs_offset_doubled (size x : nat) :
  (Qabs (float_of_nat x - float_of_nat size / 2)
   == inject_Z (Z.abs (2 * Z.of_nat x - Z.of_nat size)) * (1 # 2))%Q.
Proof.
  assert (E : (float_of_nat x - float_of_nat size / 2
               == inject_Z (2 * Z.of_nat x - Z.of_nat size) * (1 # 2))%Q).
  { unfold float_of_nat, Z.sub.
    rewrite inject_Z_plus, inject_Z_opp, inject_Z_mult.
    change (inject_Z 2) with 2%Q. field. }
  rewrite E, Qabs_Qmult. reflexivity.
Qed.

(** Opacity is antitone in the distance from the centre, coordinate by
    coordinate; distances are doubled to stay in the integers. *)
Lemma mask_antitone_in_offsets (size : nat) (mask : Band) (x y x' y' : nat) :
  create_squircle_mask size 5 = Ok mask ->
  x < size -> y < size -> x' < size -> y' < size ->
  (Z.abs (2 * Z.of_nat x - Z.of_nat size) <= Z.abs (2 * Z.of_nat x' - Z.of_nat size))%Z ->
  (Z.abs (2 * Z.of_nat y - Z.of_nat size) <= Z.abs (2 * Z.of_nat y' - Z.of_nat size))%Z ->
  exists p p' : Z,
    getpixel mask x y = Some p /\ getpixel mask x' y' = Some p' /\ (p' <= p)%Z.
Proof.
  intros Hm Hx Hy Hx' Hy' Dx Dy.
  rewrite (generated_mask_is_grid true size mask (or_introl Hm)).
  exists (pixel_alpha (squircle_value size 5 x y)),
         (pixel_alpha (squircle_value size 5 x' y')).
  split; [apply getpixel_squircle_grid; assumption |].
  split; [apply getpixel_squircle_grid; assumption |].
  apply pixel_alpha_antitone. apply squircle_value_mono.
  - rewrite !abs_offset_doubled.
    apply Qmult_le_compat_r; [rewrite <- Zle_Qle; exact Dx | discriminate].
  - rewrite !abs_offset_doubled.
    apply Qmult_le_compat_r; [rewrite <- Zle_Qle; exact Dy | discriminate].
Qed.

Lemma centre_pixel_offsets (size : nat) (d : Z) (s t : nat) :
  s <= t ->
  (Z.abs (2 * (Z.of_nat (size / 2) + Z.of_nat s * d) - Z.of_nat size)
   <= Z.abs (2 * (Z.of_nat (size / 2) + Z.of_nat t * d) - Z.of_nat size))%Z.
Proof.
  intros Hst.
  pose proof (Nat.div_mod_eq size 2) as Hd.
  pose proof (Nat.mod_upper_bound size 2 ltac:(lia)) as Hm.
  set (k := size / 2) in *. set (e := size mod 2) in *.
  assert (Hsize : Z.of_nat size = (2 * Z.of_nat k + Z.of_nat e)%Z) by lia.
  rewrite Hsize.
  destruct (Z.lt_trichotomy d 0) as [Hneg | [-> | Hpos]].
  - assert (Z.of_nat t * d <= Z.of_nat s * d)%Z by nia.
    assert (Z.of_nat s * d <= 0)%Z by nia. lia.
  - rewrite !Z.mul_0_r. lia.
  - destruct s as [|s'].
    + destruct t as [|t']; [lia |].
      assert (1 <= Z.of_nat (Datatypes.S t') * d)%Z by nia. lia.
    + assert (Z.of_nat (Datatypes.S s') * d <= Z.of_nat t * d)%Z by nia.
      assert (1 <= Z.of_nat (Datatypes.S s') * d)%Z by nia. lia.
Qed.

(** The same monotonicity along the rays of pixels that leave the centre
    pixel (size/2, size/2) in an integer direction (dx, dy). *)
Lemma mask_monotone_from_centre_pixel (size : nat) (mask : Band)
  (dx dy : Z) (s t : nat) (x y x' y' : nat) :
  create_squircle_mask size 5 = Ok mask ->
  x < size -> y < size -> x' < size -> y' < size ->
  s <= t ->
  Z.of_nat x = (Z.of_nat (size / 2) + Z.of_nat s * dx)%Z ->
  Z.of_nat y = (Z.of_nat (size / 2) + Z.of_nat s * dy)%Z ->
  Z.of_nat x' = (Z.of_nat (size / 2) + Z.of_nat t * dx)%Z ->
  Z.of_nat y' = (Z.of_nat (size / 2) + Z.of_nat t * dy)%Z ->
  exists p p' : Z,
    getpixel mask x y = Some p /\ getpixel mask x' y' = Some p' /\ (p' <= p)%Z.
Proof.
  intros Hm Hx Hy Hx' Hy' Hst Ex Ey Ex' Ey'.
  apply (mask_antitone_in_offsets size mask x y x' y' Hm Hx Hy Hx' Hy').
  - rewrite Ex, Ex'. apply centre_pixel_offsets. exact Hst.
  - rewrite Ey, Ey'. apply centre_pixel_offsets. exact Hst.
Qed.

(** From size 16 on, the three other corners of the mask are transparent
    as well; below, the corner opposite to (0, 0) is not (see [mask_2]). *)
Lemma far_corners_transparent (size : nat) (mask : Band) :
  16 <= size ->
  create_squircle_mask size 5 = Ok mask ->
  getpixel mask (size - 1) 0 = Some 0%Z
  /\ getpixel mask 0 (size - 1) = Some 0%Z
  /\ getpixel mask (size - 1) (size - 1) = Some 0%Z.
Proof.
  intros Hs Hm.
  rewrite (generated_mask_is_grid true size mask (or_introl Hm)).
  assert (Hpow : ((7 # 8) ^ 5
                  <= Qabs ((float_of_nat (size - 1) - float_of_nat size / 2)
                           / (float_of_nat size / 2)) ^ 5)%Q).
  { apply pow5_mono; [discriminate |].
    assert (H16 : (16 <= float_of_nat size)%Q).
    { change 16%Q with (float_of_nat 16). apply float_of_nat_le. exact Hs. }
    pose proof (float_of_nat_sub size 1 ltac:(lia)) as E1.
    change (float_of_nat 1) with 1%Q in E1.
    set (h := (float_of_nat size / 2)%Q) in *.
    assert (Hh : (float_of_nat size == 2 * h)%Q) by (unfold h; field).
    rewrite Hh in H16, E1.
    eapply Qle_trans; [| apply Qle_Qabs].
    apply Qle_shift_div_l; [lra |]. rewrite E1. lra. }
  change ((7 # 8) ^ 5)%Q with (16807 # 32768)%Q in Hpow.
  pose proof (squircle_value_corner size ltac:(lia)) as Hc.
  assert (Hc1 : (Qabs ((float_of_nat 0 - float_of_nat size / 2) / (float_of_nat size / 2)) ^ 5
                 == 1)%Q).
  { unfold squircle_value in Hc. cbv zeta in Hc. lra. }
  assert (Hzero : forall v : Q, (1 < v)%Q -> pixel_alpha v = 0%Z).
  { intros v Hv.
    destruct (pixel_alpha_cases v) as [(H & _) | [(H & _) | (_ & ->)]];
      [unfold edge_width in H; lra | lra | reflexivity]. }
  repeat split; rewrite getpixel_squircle_grid by lia; f_equal; apply Hzero;
    unfold squircle_value; cbv zeta; lra.
Qed.

(** * More of the code *)

(** ** When the scalar loop raises *)

Lemma for_each_app {S : Type} (body : nat -> S -> result S) (l1 l2 : list nat) (s : S) :
  for_each body (l1 ++ l2) s = (s' ← for_each body l1 s; for_each body l2 s').
Proof.
  revert s. induction l1 as [|x l1 IH]; intros s; simpl; [reflexivity |].
  destruct (body x s) as [s1 | e]; simpl; [apply IH | reflexivity].
Qed.

Lemma for_each_unchanged {S : Type} (body : nat -> S -> result S) (l : list nat) (s : S) :
  (forall x, In x l -> body x s = Ok s) -> for_each body l s = Ok s.
Proof.
  induction l as [|x l IH]; intros H; simpl; [reflexivity |].
  rewrite (H x (or_introl eq_refl)). simpl. apply IH.
  intros x' Hx'. apply H. right. exact Hx'.
Qed.

Lemma Qabs_zero (q : Q) : (Qabs q == 0)%Q -> (q == 0)%Q.
Proof.
  intros H. pose proof (Qle_Qabs q) as H1. pose proof (Qle_Qabs (- q)) as H2.
  rewrite Qabs_opp in H2. lra.
Qed.

Lemma offset_sign (size x : nat) (h : Q) :
  (float_of_nat size == 2 * h)%Q ->
  ((float_of_nat x - h == 0)%Q <-> 2 * x = size).
Proof.
  intros Hh. split.
  - intros E. assert (E2 : (float_of_nat (2 * x) == float_of_nat size)%Q).
    { rewrite float_of_nat_double. lra. }
    unfold float_of_nat in E2. apply (proj1 (inject_Z_injective _ _)) in E2. lia.
  - intros <-. rewrite float_of_nat_double in Hh. lra.
Qed.

(** The normalised coordinate is 0 exactly at [x = size / 2] for an even
    size, and nowhere for an odd one. *)
Lemma normalised_zero (size x : nat) :
  0 < size ->
  Qeq_bool (Qabs ((float_of_nat x - float_of_nat size / 2) / (float_of_nat size / 2))) 0
  = bool_decide (2 * x = size).
Proof.
  intros Hs.
  pose proof (float_of_nat_pos size Hs) as Hpos.
  set (h := (float_of_nat size / 2)%Q).
  assert (Hh : (float_of_nat size == 2 * h)%Q) by (unfold h; field).
  assert (Hne : ~ (h == 0)%Q) by lra.
  destruct (Qeq_bool _ _) eqn:E.
  - apply Qeq_bool_eq, Qabs_zero in E.
    assert (E0 : (float_of_nat x - h == 0)%Q).
    { assert (Em : (float_of_nat x - h == (float_of_nat x - h) / h * h)%Q)
        by (field; exact Hne).
      rewrite E in Em. lra. }
    apply (offset_sign size x h Hh) in E0.
    symmetry. apply bool_decide_eq_true. exact E0.
  - symmetry. apply bool_decide_eq_false. intros E0.
    apply (offset_sign size x h Hh) in E0.
    assert (Ez : Qeq_bool (Qabs ((float_of_nat x - h) / h)) 0 = true).
    { apply Qeq_bool_iff. rewrite E0. reflexivity. }
    congruence.
Qed.

(** The exponent meets no zero base: it is not negative, or the size is odd. *)
Lemma float_pow_defined (size : nat) (smoothness : Z) (x : nat) :
  0 < size ->
  (0 <= smoothness)%Z \/ Nat.Odd size ->
  float_pow (Qabs ((float_of_nat x - float_of_nat size / 2) / (float_of_nat size / 2)))
    smoothness
  = Ok (Qabs ((float_of_nat x - float_of_nat size / 2) / (float_of_nat size / 2))
        ^ smoothness)%Q.
Proof.
  intros Hs Hsafe. unfold float_pow. rewrite (normalised_zero size x Hs).
  destruct Hsafe as [Hn | [m Hm]].
  - assert (Hneg : (smoothness <? 0)%Z = false) by (apply Z.ltb_ge; exact Hn).
    rewrite Hneg, andb_false_r. reflexivity.
  - rewrite bool_decide_eq_false_2 by lia. reflexivity.
Qed.

Lemma squircle_pixel_defined (size : nat) (smoothness : Z) (x y : nat)
  (mask : Band) (row : list Z) :
  0 < size -> (0 <= smoothness)%Z \/ Nat.Odd size ->
  mask !! y = Some row -> row !! x = Some 0%Z ->
  squircle_pixel (float_of_nat size / 2) (float_of_nat size / 2) smoothness y x mask
  = Ok (<[y := <[x := pixel_alpha (squircle_value size smoothness x y)]> row]> mask).
Proof.
  intros Hs Hsafe Hy Hx.
  unfold squircle_pixel, float_div.
  rewrite (radius_nonzero size Hs). cbn [mbind result_bind].
  rewrite (float_pow_defined size smoothness x Hs Hsafe). cbn [mbind result_bind].
  rewrite (float_pow_defined size smoothness y Hs Hsafe). cbn [mbind result_bind].
  fold (squircle_value size smoothness x y).
  unfold pixel_alpha, putpixel. rewrite Hy.
  assert (Hlen : x < length row) by (eapply lookup_lt_Some; exact Hx).
  destruct (Qle_bool (squircle_value size smoothness x y) 1).
  - destruct (Qlt_bool _ _); rewrite decide_True by exact Hlen; reflexivity.
  - rewrite (list_insert_id row x 0%Z Hx), (list_insert_id mask y row Hy).
    reflexivity.
Qed.

Lemma squircle_row_defined (size : nat) (smoothness : Z) (y : nat) (mask : Band) :
  0 < size -> (0 <= smoothness)%Z \/ Nat.Odd size ->
  mask !! y = Some (replicate size 0%Z) ->
  for_each
    (fun x mask =>
       squircle_pixel (float_of_nat size / 2) (float_of_nat size / 2) smoothness y x mask)
    (range size) mask
  = Ok (<[y := map (fun x => pixel_alpha (squircle_value size smoothness x y)) (seq 0 size)]> mask).
Proof.
  intros Hs Hsafe Hy.
  set (f := fun x => pixel_alpha (squircle_value size smoothness x y)).
  destruct (for_each_invariant
              (fun x m => x <= size /\ m = <[y := filled f 0%Z size x]> mask)
              (fun x mask =>
                 squircle_pixel (float_of_nat size / 2) (float_of_nat size / 2)
                   smoothness y x mask)
              size 0 mask) as (m & Hm & _ & ->).
  - split; [lia |]. rewrite filled_start. symmetry. apply list_insert_id. exact Hy.
  - intros x m Hx (_ & ->).
    assert (Hylen : y < length mask) by (eapply lookup_lt_Some; exact Hy).
    rewrite (squircle_pixel_defined size smoothness x y _ (filled f 0%Z size x) Hs Hsafe).
    + eexists. split; [reflexivity |]. split; [lia |].
      rewrite list_insert_insert_eq. fold (f x).
      rewrite filled_step by lia. reflexivity.
    + apply list_lookup_insert_eq. exact Hylen.
    + apply filled_lookup. lia.
  - unfold range. rewrite Hm. simpl. rewrite filled_end. reflexivity.
Qed.

Lemma create_squircle_mask_defined (size : nat) (smoothness : Z) :
  (0 <= smoothness)%Z \/ Nat.Odd size ->
  create_squircle_mask size smoothness = Ok (squircle_grid size smoothness).
Proof.
  intros Hsafe. destruct size as [|k]; [reflexivity |].
  set (size := Datatypes.S k) in *. assert (Hs : 0 < size) by (unfold size; lia).
  unfold create_squircle_mask, Image_new_L, squircle_grid, tab. fold size.
  set (rowf := fun y => map (fun x => pixel_alpha (squircle_value size smoothness x y))
                          (seq 0 size)).
  destruct (for_each_invariant
              (fun y m => y <= size /\ m = filled rowf (replicate size 0%Z) size y)
              (fun y mask =>
                 for_each
                   (fun x mask =>
                      squircle_pixel (float_of_nat size / 2) (float_of_nat size / 2)
                        smoothness y x mask)
                   (range size) mask)
              size 0 (replicate size (replicate size 0%Z))) as (m & Hm & _ & ->).
  - split; [lia |]. rewrite filled_start. reflexivity.
  - intros y m Hy (_ & ->).
    rewrite squircle_row_defined; [| exact Hs | exact Hsafe | apply filled_lookup; lia].
    eexists. split; [reflexivity |]. split; [lia |].
    fold (rowf y). apply filled_step. lia.
  - unfold range in Hm |- *. rewrite Hm. simpl. rewrite filled_end. reflexivity.
Qed.

Lemma Qabs_pos_of_nonzero (q : Q) : Qeq_bool (Qabs q) 0 = false -> (0 < Qabs q)%Q.
Proof.
  intros H. apply Qeq_bool_neq in H.
  destruct (Qle_lt_or_eq 0 (Qabs q) (Qabs_nonneg q)) as [Hlt | Heq]; [exact Hlt |].
  exfalso. apply H. symmetry. exact Heq.
Qed.

Lemma normalised_first (size : nat) :
  0 < size ->
  (Qabs ((float_of_nat 0 - float_of_nat size / 2) / (float_of_nat size / 2)) == 1)%Q.
Proof.
  intros Hs. pose proof (float_of_nat_pos size Hs) as Hpos.
  assert (E : ((float_of_nat 0 - float_of_nat size / 2) / (float_of_nat size / 2) == - (1))%Q).
  { unfold float_of_nat at 1. simpl inject_Z. field. lra. }
  rewrite E. reflexivity.
Qed.

(** On row 0, left of the middle column, an even size and a negative
    exponent leave the image as it is: the value is above 1. *)
Lemma squircle_pixel_before_pole (m : nat) (smoothness : Z) (x : nat) (mask : Band) :
  (smoothness < 0)%Z -> x < m ->
  squircle_pixel (float_of_nat (2 * m) / 2) (float_of_nat (2 * m) / 2) smoothness 0 x mask
  = Ok mask.
Proof.
  intros Hn Hx. assert (Hs : 0 < 2 * m) by lia.
  unfold squircle_pixel, float_div.
  rewrite (radius_nonzero (2 * m) Hs). cbn [mbind result_bind].
  unfold float_pow.
  pose proof (normalised_zero (2 * m) x Hs) as Zx.
  rewrite bool_decide_eq_false_2 in Zx by lia.
  pose proof (normalised_zero (2 * m) 0 Hs) as Z0.
  rewrite bool_decide_eq_false_2 in Z0 by lia.
  rewrite Zx, Z0. cbn [andb mbind result_bind].
  assert (Hpx : (0 < Qabs ((float_of_nat x - float_of_nat (2 * m) / 2)
                           / (float_of_nat (2 * m) / 2)) ^ smoothness)%Q).
  { apply Qpower_0_lt. apply Qabs_pos_of_nonzero. exact Zx. }
  assert (Hpy : (Qabs ((float_of_nat 0 - float_of_nat (2 * m) / 2)
                       / (float_of_nat (2 * m) / 2)) ^ smoothness == 1)%Q).
  { rewrite (normalised_first (2 * m) Hs). apply Qpower_1. }
  assert (Hv : Qle_bool
                 (Qabs ((float_of_nat x - float_of_nat (2 * m) / 2)
                        / (float_of_nat (2 * m) / 2)) ^ smoothness
                  + Qabs ((float_of_nat 0 - float_of_nat (2 * m) / 2)
                          / (float_of_nat (2 * m) / 2)) ^ smoothness) 1 = false).
  { apply Qle_bool_false. lra. }
  rewrite Hv. reflexivity.
Qed.

(** In the middle column an even size and a negative exponent raise. *)
Lemma squircle_pixel_at_pole (m : nat) (smoothness : Z) (y : nat) (mask : Band) :
  (smoothness < 0)%Z -> 0 < m ->
  squircle_pixel (float_of_nat (2 * m) / 2) (float_of_nat (2 * m) / 2) smoothness y m mask
  = Raise ZeroDivisionError.
Proof.
  intros Hn Hm. assert (Hs : 0 < 2 * m) by lia.
  unfold squircle_pixel, float_div.
  rewrite (radius_nonzero (2 * m) Hs). cbn [mbind result_bind].
  unfold float_pow. rewrite (normalised_zero (2 * m) m Hs).
  rewrite bool_decide_eq_true_2 by reflexivity.
  assert (Hneg : (smoothness <? 0)%Z = true) by (apply Z.ltb_lt; exact Hn).
  rewrite Hneg. reflexivity.
Qed.

Lemma squircle_row_pole (m : nat) (smoothness : Z) (mask : Band) :
  (smoothness < 0)%Z -> 0 < m ->
  for_each
    (fun x mask =>
       squircle_pixel (float_of_nat (2 * m) / 2) (float_of_nat (2 * m) / 2)
         smoothness 0 x mask)
    (seq 0 (2 * m)) mask
  = Raise ZeroDivisionError.
Proof.
  intros Hn Hm.
  replace (seq 0 (2 * m)) with (seq 0 m ++ seq m m)
    by (rewrite <- seq_app; f_equal; lia).
  rewrite for_each_app, for_each_unchanged.
  - destruct m as [|k]; [lia |]. cbn [seq for_each mbind result_bind].
    rewrite (squircle_pixel_at_pole (Datatypes.S k) smoothness 0 mask Hn Hm).
    reflexivity.
  - intros x Hx. apply in_seq in Hx.
    apply squircle_pixel_before_pole; [exact Hn | lia].
Qed.

Lemma create_squircle_mask_pole (m : nat) (smoothness : Z) :
  (smoothness < 0)%Z -> 0 < m ->
  create_squircle_mask (2 * m) smoothness = Raise ZeroDivisionError.
Proof.
  intros Hn Hm. unfold create_squircle_mask, range.
  set (body := fun (y : nat) (mask : Band) =>
                 for_each
                   (fun x mask =>
                      squircle_pixel (float_of_nat (2 * m) / 2) (float_of_nat (2 * m) / 2)
                        smoothness y x mask)
                   (seq 0 (2 * m)) mask).
  replace (seq 0 (2 * m)) with (0 :: seq 1 (2 * m - 1))
    by (destruct m; [lia |]; simpl; rewrite Nat.sub_0_r; reflexivity).
  cbn [for_each].
  assert (Hb : body 0 (Image_new_L (2 * m) (2 * m) 0) = Raise ZeroDivisionError)
    by (apply squircle_row_pole; assumption).
  rewrite Hb. reflexivity.
Qed.

(** X1.  With a negative smoothness and an even size that is not 0 the
    scalar double loop returns no mask: it ends in an exception (the pixel of
    column size/2 has nx = 0, and 0.0 to a negative power raises). *)
Theorem create_squircle_mask_negative_even_raises (size : nat) (smoothness : Z) :
  (smoothness < 0)%Z -> 0 < size -> Nat.Even size ->
  exists e : exn, create_squircle_mask size smoothness = Raise e.
Proof.
  intros Hn Hs [m ->]. exists ZeroDivisionError.
  apply create_squircle_mask_pole; [exact Hn | lia].
Qed.

Lemma create_squircle_mask_negative_even_raises_witness :
  exists e : exn, create_squircle_mask 2 (-1) = Raise e.
Proof.
  apply (create_squircle_mask_negative_even_raises 2 (-1)).
  - lia.
  - lia.
  - exists 1. reflexivity.
Defined.

(** ** What the array code returns for every exponent *)

Lemma Qeq_bool_ext (a a' b : Q) : (a == a')%Q -> Qeq_bool a b = Qeq_bool a' b.
Proof.
  intros E. destruct (Qeq_bool a b) eqn:H1; destruct (Qeq_bool a' b) eqn:H2;
    try reflexivity.
  - apply Qeq_bool_iff in H1. apply Qeq_bool_neq in H2. exfalso. apply H2.
    rewrite <- E. exact H1.
  - apply Qeq_bool_iff in H2. apply Qeq_bool_neq in H1. exfalso. apply H1.
    rewrite E. exact H2.
Qed.

(** One term of the array value: [inf] at a zero base under a negative
    exponent, the power otherwise. *)
Lemma np_term (size : nat) (smoothness : Z) (x : nat) :
  0 < size ->
  exists q : Q,
    (q == Qabs ((float_of_nat x - float_of_nat size / 2) / (float_of_nat size / 2))
          ^ smoothness)%Q
    /\ np_pow (np_abs (np_div (Fin (float_of_nat x - float_of_nat size / 2))
                         (float_of_nat size / 2))) smoothness
       = if bool_decide (2 * x = size) && (smoothness <? 0)%Z then PInf else Fin q.
Proof.
  intros Hs. unfold np_div. rewrite (radius_nonzero size Hs).
  cbn [np_scale np_abs np_pow].
  assert (E : (/ (float_of_nat size / 2) * (float_of_nat x - float_of_nat size / 2)
               == (float_of_nat x - float_of_nat size / 2) / (float_of_nat size / 2))%Q).
  { unfold Qdiv. apply Qmult_comm. }
  rewrite (Qeq_bool_ext _ _ 0 (Qabs_wd _ _ E)), (normalised_zero size x Hs).
  eexists. split; [| reflexivity]. rewrite E. reflexivity.
Qed.

Lemma array_alpha_range (v : npfloat) : (0 <= array_alpha v <= 255)%Z.
Proof.
  destruct v as [q | | |].
  - rewrite array_alpha_Fin. apply pixel_alpha_range.
  - cbn. lia.
  - cbn. lia.
  - cbn. lia.
Qed.

Lemma squircle_array_defined (size : nat) (smoothness : Z) :
  (0 <= smoothness)%Z \/ Nat.Odd size ->
  squircle_array size smoothness = squircle_grid size smoothness.
Proof.
  intros Hsafe. rewrite squircle_array_grid. unfold squircle_grid.
  apply tab_ext. intros x y Hx Hy. assert (Hs : 0 < size) by lia.
  unfold np_value. cbv zeta.
  destruct (np_term size smoothness x Hs) as (qx & Ex & ->).
  destruct (np_term size smoothness y Hs) as (qy & Ey & ->).
  assert (Hpole : forall i : nat, bool_decide (2 * i = size) && (smoothness <? 0)%Z = false).
  { intros i. destruct Hsafe as [Hn | [m Hm]].
    - assert (Hneg : (smoothness <? 0)%Z = false) by (apply Z.ltb_ge; exact Hn).
      rewrite Hneg. apply andb_false_r.
    - rewrite bool_decide_eq_false_2 by lia. reflexivity. }
  rewrite !Hpole. cbn [np_add]. rewrite array_alpha_Fin.
  apply pixel_alpha_comp. unfold squircle_value. cbv zeta. rewrite Ex, Ey. reflexivity.
Qed.

Lemma scalar_result (size : nat) (smoothness : Z) (mask : Band) :
  create_squircle_mask size smoothness = Ok mask ->
  mask = squircle_grid size smoothness
  /\ squircle_array size smoothness = squircle_grid size smoothness.
Proof.
  intros H.
  destruct (Z_lt_le_dec smoothness 0) as [Hn | Hn].
  - destruct (Nat.Even_or_Odd size) as [[m ->] | Hodd].
    + destruct m as [|k].
      * cbn in H. injection H as <-. split; reflexivity.
      * rewrite create_squircle_mask_pole in H by (try assumption; lia). discriminate.
    + rewrite create_squircle_mask_defined in H by (right; exact Hodd).
      injection H as <-. split; [reflexivity |].
      apply squircle_array_defined. right. exact Hodd.
  - rewrite create_squircle_mask_defined in H by (left; exact Hn).
    injection H as <-. split; [reflexivity |].
    apply squircle_array_defined. left. exact Hn.
Qed.

Lemma generated_mask_wf (numpy : bool) (size : nat) (smoothness : Z) (mask : Band) :
  create_squircle_mask_fast numpy size smoothness = Ok mask ->
  wf_band size size mask.
Proof.
  intros Hm.
  assert (E : mask = squircle_array size smoothness).
  { unfold create_squircle_mask_fast in Hm. destruct numpy; [congruence |].
    destruct (scalar_result size smoothness mask Hm) as (-> & ->). reflexivity. }
  rewrite E, squircle_array_grid. apply wf_band_tab.
  intros x y _ _. apply array_alpha_range.
Qed.

(** X2.  Every mask the generator returns, scalar or vectorised, for any
    size and any integer smoothness, is a size-by-size grid whose samples
    all lie in 0..255. *)
Theorem generated_mask_is_8bit_square (numpy : bool) (size : nat) (smoothness : Z)
  (mask : Band) :
  create_squircle_mask_fast numpy size smoothness = Ok mask ->
  length mask = size
  /\ Forall (fun row => length row = size /\ Forall (fun v => 0 <= v <= 255)%Z row) mask.
Proof.
  intros Hm.
  assert (E : mask = squircle_array size smoothness).
  { unfold create_squircle_mask_fast in Hm. destruct numpy; [congruence |].
    destruct (scalar_result size smoothness mask Hm) as (-> & ->). reflexivity. }
  rewrite E, squircle_array_grid. split; [apply tab_length |].
  apply (wf_band_tab size size). intros x y _ _. apply array_alpha_range.
Qed.

Lemma generated_mask_is_8bit_square_witness :
  length [[0; 0; 0]; [0; 0; 0]; [0; 0; 0]]%Z = 3
  /\ Forall (fun row => length row = 3 /\ Forall (fun v => 0 <= v <= 255)%Z row)
       [[0; 0; 0]; [0; 0; 0]; [0; 0; 0]]%Z.
Proof.
  apply (generated_mask_is_8bit_square false 3 (-2)). vm_compute. reflexivity.
Defined.





(** ** Where the mask is transparent and where it is opaque *)

Lemma pixel_alpha_outside (v : Q) : (1 <= v)%Q -> pixel_alpha v = 0%Z.
Proof.
  intros Hv.
  destruct (pixel_alpha_cases v) as [(H & _) | [(H & ->) | (_ & ->)]];
    [unfold edge_width in H; lra | | reflexivity].
  apply int_of_float_Z. rewrite ramp_eq. change (inject_Z 0) with 0%Q. lra.
Qed.

Lemma array_alpha_border (size : nat) (smoothness : Z) (i : nat) :
  0 < size ->
  array_alpha (np_value size smoothness 0 i) = 0%Z
  /\ array_alpha (np_value size smoothness i 0) = 0%Z.
Proof.
  intros Hs. unfold np_value. cbv zeta.
  destruct (np_term size smoothness 0 Hs) as (q0 & E0 & ->).
  destruct (np_term size smoothness i Hs) as (qi & Ei & ->).
  rewrite (bool_decide_eq_false_2 (2 * 0 = size)) by lia. cbn [andb].
  assert (H0 : (q0 == 1)%Q).
  { rewrite E0, (normalised_first size Hs). apply Qpower_1. }
  assert (Hi : (0 <= qi)%Q).
  { rewrite Ei. apply Qpower_0_le. apply Qabs_nonneg. }
  destruct (bool_decide (2 * i = size) && (smoothness <? 0)%Z); cbn [np_add].
  - split; reflexivity.
  - rewrite !array_alpha_Fin. split; apply pixel_alpha_outside; lra.
Qed.

(** X4.  Whatever the generator returns (scalar or vectorised, any integer
    smoothness), the first row and the first column of the mask are fully
    transparent: there |ny| or |nx| is 1, so the value is at least 1. *)
Theorem mask_first_row_and_column_transparent (numpy : bool) (size : nat)
  (smoothness : Z) (mask : Band) (i : nat) :
  create_squircle_mask_fast numpy size smoothness = Ok mask ->
  i < size ->
  getpixel mask i 0 = Some 0%Z /\ getpixel mask 0 i = Some 0%Z.
Proof.
  intros Hm Hi.
  assert (E : mask = squircle_array size smoothness).
  { unfold create_squircle_mask_fast in Hm. destruct numpy; [congruence |].
    destruct (scalar_result size smoothness mask Hm) as (-> & ->). reflexivity. }
  rewrite E, squircle_array_grid.
  rewrite !getpixel_tab by lia.
  destruct (array_alpha_border size smoothness i ltac:(lia)) as (H1 & H2).
  rewrite H1, H2. split; reflexivity.
Qed.

Lemma mask_first_row_and_column_transparent_witness :
  getpixel [[0; 0; 0; 0]; [0; 255; 255; 255]; [0; 255; 255; 255]; [0; 255; 255; 255]]%Z 3 0
  = Some 0%Z
  /\ getpixel [[0; 0; 0; 0]; [0; 255; 255; 255]; [0; 255; 255; 255]; [0; 255; 255; 255]]%Z 0 3
     = Some 0%Z.
Proof.
  apply (mask_first_row_and_column_transparent false 4 5).
  - vm_compute. reflexivity.
  - lia.
Defined.

Lemma normalised_doubled (size x : nat) :
  0 < size ->
  (Qabs ((float_of_nat x - float_of_nat size / 2) / (float_of_nat size / 2))
   == inject_Z (Z.abs (2 * Z.of_nat x - Z.of_nat size)) / float_of_nat size)%Q.
Proof.
  intros Hs. pose proof (float_of_nat_pos size Hs) as Hpos.
  rewrite Qabs_div, abs_offset_doubled.
  rewrite Qabs_pos.
  - field. lra.
  - apply Qinv_le_0_compat.
    set (h := (float_of_nat size / 2)%Q).
    assert (Hh : (float_of_nat size == 2 * h)%Q) by (unfold h; field). lra.
Qed.

Lemma interior_alpha (size x y : nat) :
  0 < size ->
  (20 * Z.abs (2 * Z.of_nat x - Z.of_nat size) <= 17 * Z.of_nat size)%Z ->
  (20 * Z.abs (2 * Z.of_nat y - Z.of_nat size) <= 17 * Z.of_nat size)%Z ->
  pixel_alpha (squircle_value size 5 x y) = 255%Z.
Proof.
  intros Hs Bx By.
  pose proof (float_of_nat_pos size Hs) as Hpos.
  assert (Hb : forall i : nat,
             (20 * Z.abs (2 * Z.of_nat i - Z.of_nat size) <= 17 * Z.of_nat size)%Z ->
             (Qabs ((float_of_nat i - float_of_nat size / 2) / (float_of_nat size / 2)) ^ 5
              <= (17 # 20) ^ 5)%Q).
  { intros i Bi. apply pow5_mono; [apply Qabs_nonneg |].
    rewrite (normalised_doubled size i Hs).
    apply Qle_shift_div_r; [exact Hpos |].
    assert (Bq : (inject_Z (20 * Z.abs (2 * Z.of_nat i - Z.of_nat size))
                  <= inject_Z (17 * Z.of_nat size))%Q) by (rewrite <- Zle_Qle; exact Bi).
    rewrite !inject_Z_mult in Bq. fold (float_of_nat size) in Bq.
    change (inject_Z 20) with 20%Q in Bq. change (inject_Z 17) with 17%Q in Bq.
    lra. }
  pose proof (Hb x Bx) as Px. pose proof (Hb y By) as Py.
  change ((17 # 20) ^ 5)%Q with (1419857 # 3200000)%Q in Px, Py.
  destruct (pixel_alpha_cases (squircle_value size 5 x y))
    as [(_ & ->) | [(H & _) | (H & _)]]; [reflexivity | |];
    unfold squircle_value in H; cbv zeta in H; unfold edge_width in H; lra.
Qed.

Lemma border_alpha (size i : nat) :
  i < size ->
  pixel_alpha (squircle_value size 5 0 i) = 0%Z
  /\ pixel_alpha (squircle_value size 5 i 0) = 0%Z.
Proof.
  intros Hi. assert (Hs : 0 < size) by lia.
  rewrite <- !(array_alpha_value size 5) by (try exact Hs; lia).
  apply array_alpha_border. exact Hs.
Qed.

(** X5.  With smoothness 5 every pixel whose two normalised coordinates are
    at most 0.85 in absolute value (20 * |2x - size| <= 17 * size, and the
    same for y) is fully opaque, in the scalar and in the vectorised mask. *)
Theorem mask_interior_opaque (numpy : bool) (size : nat) (mask : Band) (x y : nat) :
  create_squircle_mask_fast numpy size 5 = Ok mask ->
  x < size -> y < size ->
  (20 * Z.abs (2 * Z.of_nat x - Z.of_nat size) <= 17 * Z.of_nat size)%Z ->
  (20 * Z.abs (2 * Z.of_nat y - Z.of_nat size) <= 17 * Z.of_nat size)%Z ->
  getpixel mask x y = Some 255%Z.
Proof.
  intros Hm Hx Hy Bx By.
  rewrite (generated_mask_is_grid numpy size mask (or_intror Hm)).
  rewrite getpixel_squircle_grid by assumption. f_equal.
  apply interior_alpha; [lia | exact Bx | exact By].
Qed.

Lemma mask_interior_opaque_witness :
  getpixel [[0; 0; 0; 0]; [0; 255; 255; 255]; [0; 255; 255; 255]; [0; 255; 255; 255]]%Z 2 3
  = Some 255%Z.
Proof.
  apply (mask_interior_opaque true 4 _ 2 3).
  - vm_compute. reflexivity.
  - lia.
  - lia.
  - lia.
  - lia.
Defined.

(** ** The applicator: crop, opaque sources, errors *)

Lemma crop_band_getpixel (left top n : nat) (b : Band) (x y : nat) :
  x < n -> y < n ->
  getpixel (crop_band left top (left + n) (top + n) b) x y
  = getpixel b (left + x) (top + y).
Proof.
  intros Hx Hy. unfold getpixel, crop_band.
  replace (left + n - left) with n by lia.
  replace (top + n - top) with n by lia.
  rewrite list_lookup_fmap, lookup_take_lt, lookup_drop by exact Hy.
  destruct (b !! (top + y)) as [row |]; simpl; [| reflexivity].
  rewrite lookup_take_lt, lookup_drop by exact Hx. reflexivity.
Qed.

Lemma pixel_at_tab (h w : nat) (g : nat -> nat -> Z) (x y : nat) :
  x < w -> y < h -> pixel_at (tab h w g) y x = g y x.
Proof.
  intros Hx Hy. unfold pixel_at.
  rewrite (nth_lookup (tab h w g) y), tab_lookup by exact Hy. simpl.
  rewrite nth_lookup, list_lookup_fmap, lookup_seq_lt by exact Hx. reflexivity.
Qed.

(** The colour bands after the crop and the conversion are the centre crop
    of the colour bands of the converted source. *)
Lemma prepared_colour (im : Image) (w h : nat) :
  image_size im = (w, h) ->
  Forall2
    (fun src dst : Band =>
       forall x y : nat, x < Nat.min w h -> y < Nat.min w h ->
         getpixel dst x y
         = getpixel src ((w - Nat.min w h) / 2 + x) ((h - Nat.min w h) / 2 + y))
    (colour_bands (convert_RGBA im)) (colour_bands (prepared_source im)).
Proof.
  intros Hsize. unfold prepared_source. rewrite Hsize.
  destruct (decide (w <> h)) as [Hne | He].
  - destruct im as [l | r g b | r g b a]; cbn;
      repeat (apply Forall2_cons; split);
      try apply Forall2_nil; try exact I;
      intros x y Hx Hy; apply crop_band_getpixel; assumption.
  - assert (E : w = h) by (destruct (decide (w = h)); [assumption | contradiction]).
    subst h. rewrite Nat.min_id, Nat.sub_diag.
    destruct im as [l | r g b | r g b a]; cbn;
      repeat (apply Forall2_cons; split);
      try apply Forall2_nil; try exact I;
      intros x y Hx Hy; reflexivity.
Qed.

(** X6.  For every well-formed image of width w and height h the applicator
    returns a square RGBA image of side n = min w h whose colour bands are
    the centre crop of the colour bands of the RGBA-converted source: the
    crop starts at column (w - n) / 2 and row (h - n) / 2, and the margins on
    the two sides differ by at most one pixel. *)
Theorem applicator_centre_crop (numpy : bool) (image : Image) (w h : nat) :
  wf_image image ->
  image_size image = (w, h) ->
  exists out : Image,
    apply_squircle_mask numpy image 5 = Ok out
    /\ is_RGBA out = true
    /\ image_size out = (Nat.min w h, Nat.min w h)
    /\ (w - Nat.min w h) / 2 <= w - Nat.min w h - (w - Nat.min w h) / 2
       <= (w - Nat.min w h) / 2 + 1
    /\ (h - Nat.min w h) / 2 <= h - Nat.min w h - (h - Nat.min w h) / 2
       <= (h - Nat.min w h) / 2 + 1
    /\ Forall2
         (fun src dst : Band =>
            forall x y : nat, x < Nat.min w h -> y < Nat.min w h ->
              getpixel dst x y
              = getpixel src ((w - Nat.min w h) / 2 + x) ((h - Nat.min w h) / 2 + y))
         (colour_bands (convert_RGBA image)) (colour_bands out).
Proof.
  intros Hwf Hsize.
  destruct (apply_squircle_mask_result numpy image w h Hwf Hsize)
    as (r & g & b & a & Hp & Hr & _ & Hout).
  exists (ImRGBA r g b (masked_alpha (Nat.min w h) a)).
  split; [exact Hout |]. split; [reflexivity |].
  split; [unfold image_size; simpl; apply band_size_wf; exact Hr |].
  split.
  { pose proof (Nat.div_mod_eq (w - Nat.min w h) 2).
    pose proof (Nat.mod_upper_bound (w - Nat.min w h) 2 ltac:(lia)). lia. }
  split.
  { pose proof (Nat.div_mod_eq (h - Nat.min w h) 2).
    pose proof (Nat.mod_upper_bound (h - Nat.min w h) 2 ltac:(lia)). lia. }
  pose proof (prepared_colour image w h Hsize) as Hc.
  rewrite Hp in Hc. exact Hc.
Qed.

Lemma applicator_centre_crop_witness :
  exists out : Image,
    apply_squircle_mask false sample_image 5 = Ok out
    /\ is_RGBA out = true
    /\ image_size out = (2, 2).
Proof.
  destruct (applicator_centre_crop false sample_image 3 2 sample_image_wf eq_refl)
    as (out & H1 & H2 & H3 & _).
  exists out. auto.
Defined.

Lemma BLEND_opaque_source (m : Z) : (0 <= m <= 255)%Z -> BLEND m 0 255 = m.
Proof.
  intros Hm.
  destruct (BLEND_zero_background 255 m ltac:(lia) Hm) as (_ & _ & H). lia.
Qed.

(** X7.  When the alpha of the cropped, RGBA-converted source is 255 at
    every pixel (a fully opaque source), the alpha band of the applicator's
    output is the mask itself. *)
Theorem opaque_source_gets_mask_as_alpha (numpy : bool) (image : Image) (w h : nat)
  (alpha : Band) :
  wf_image image ->
  image_size image = (w, h) ->
  alpha_band (prepared_source image) = Some alpha ->
  (forall x y : nat, x < Nat.min w h -> y < Nat.min w h ->
     getpixel alpha x y = Some 255%Z) ->
  exists (out : Image) (mask : Band),
    apply_squircle_mask numpy image 5 = Ok out
    /\ create_squircle_mask_fast numpy (Nat.min w h) 5 = Ok mask
    /\ alpha_band out = Some mask.
Proof.
  intros Hwf Hsize Halpha Hopaque.
  destruct (apply_squircle_mask_result numpy image w h Hwf Hsize)
    as (r & g & b & a & Hp & _ & Ha & Hout).
  rewrite Hp in Halpha. cbn [alpha_band] in Halpha. injection Halpha as <-.
  set (n := Nat.min w h) in *.
  exists (ImRGBA r g b (masked_alpha n a)), (squircle_grid n 5).
  split; [exact Hout |].
  split; [apply create_squircle_mask_fast_grid; lia |].
  cbn [alpha_band]. f_equal.
  unfold masked_alpha, squircle_grid. apply tab_ext. intros x y Hx Hy.
  assert (E : pixel_at a y x = 255%Z).
  { pose proof (Hopaque x y Hx Hy) as H255.
    rewrite (getpixel_pixel_at n n a x y Ha Hx Hy) in H255. congruence. }
  rewrite E. apply BLEND_opaque_source. apply pixel_alpha_range.
Qed.

Lemma opaque_source_gets_mask_as_alpha_witness :
  exists out : Image,
    apply_squircle_mask true sample_image 5 = Ok out
    /\ alpha_band out = Some [[0; 0]; [0; 255]]%Z.
Proof.
  destruct (opaque_source_gets_mask_as_alpha true sample_image 3 2
              [[255; 255]; [255; 255]]%Z sample_image_wf eq_refl eq_refl)
    as (out & mask & H1 & H2 & H3).
  - intros x y Hx Hy.
    destruct x as [|[|x]]; destruct y as [|[|y]]; try reflexivity; simpl in *; lia.
  - exists out. split; [exact H1 |].
    vm_compute in H2. injection H2 as <-. exact H3.
Defined.

(** X8.  In the applicator's output the first row and the first column are
    fully transparent, whatever the source, and every pixel whose normalised
    coordinates are at most 0.85 in absolute value keeps the alpha of the
    cropped, RGBA-converted source. *)
Theorem applicator_border_and_interior (numpy : bool) (image : Image) (w h : nat) :
  wf_image image ->
  image_size image = (w, h) ->
  exists (out : Image) (alpha alpha' : Band),
    apply_squircle_mask numpy image 5 = Ok out
    /\ alpha_band (prepared_source image) = Some alpha
    /\ alpha_band out = Some alpha'
    /\ forall x y : nat, x < Nat.min w h -> y < Nat.min w h ->
         (x = 0 \/ y = 0 -> getpixel alpha' x y = Some 0%Z)
         /\ ((20 * Z.abs (2 * Z.of_nat x - Z.of_nat (Nat.min w h))
              <= 17 * Z.of_nat (Nat.min w h))%Z ->
             (20 * Z.abs (2 * Z.of_nat y - Z.of_nat (Nat.min w h))
              <= 17 * Z.of_nat (Nat.min w h))%Z ->
             getpixel alpha' x y = getpixel alpha x y).
Proof.
  intros Hwf Hsize.
  destruct (apply_squircle_mask_result numpy image w h Hwf Hsize)
    as (r & g & b & a & Hp & _ & Ha & Hout).
  set (n := Nat.min w h) in *.
  exists (ImRGBA r g b (masked_alpha n a)), a, (masked_alpha n a).
  split; [exact Hout |].
  split; [rewrite Hp; reflexivity |].
  split; [reflexivity |].
  intros x y Hx Hy.
  pose proof (pixel_at_range n n a x y Ha Hx Hy) as Hra.
  rewrite getpixel_masked_alpha by assumption. split.
  - intros [-> | ->].
    + destruct (border_alpha n y Hy) as (E & _). rewrite E.
      f_equal. apply BLEND_transparent. exact Hra.
    + destruct (border_alpha n x Hx) as (_ & E). rewrite E.
      f_equal. apply BLEND_transparent. exact Hra.
  - intros Bx By. rewrite (interior_alpha n x y ltac:(lia) Bx By).
    rewrite (getpixel_pixel_at n n a x y Ha Hx Hy). f_equal.
    apply BLEND_opaque. exact Hra.
Qed.

Lemma applicator_border_and_interior_witness :
  exists out : Image, apply_squircle_mask true sample_square 5 = Ok out.
Proof.
  destruct (applicator_border_and_interior true sample_square 2 2 sample_square_wf eq_refl)
    as (out & _ & _ & Hout & _).
  exists out. exact Hout.
Defined.

Lemma composite_wf (n : nat) (alpha mask : Band) :
  wf_band n n alpha -> wf_band n n mask ->
  composite alpha (Image_new_L n n 0) mask
  = Ok (tab n n (fun y x => BLEND (pixel_at mask y x) 0 (pixel_at alpha y x))).
Proof.
  intros Ha Hm. unfold composite.
  assert (Ez : Image_new_L n n 0 = tab n n (fun _ _ => 0%Z))
    by (unfold Image_new_L; apply replicate_tab).
  rewrite decide_True.
  - f_equal. rewrite (band_as_tab n n alpha Ha) at 1.
    rewrite (band_as_tab n n mask Hm) at 1. rewrite Ez, zip_with3_tab. reflexivity.
  - rewrite Ez, (band_size_wf n alpha Ha), (band_size_wf n mask Hm), band_size_tab.
    split; reflexivity.
Qed.

(** X9.  On a well-formed image the applicator does what the mask
    generator does, for every integer smoothness: an exception of the
    generator is the exception of the applicator, and when the generator
    returns a mask the applicator returns a square RGBA image of side
    min w h; the composite and the merge never fail. *)
Theorem applicator_follows_generator (numpy : bool) (image : Image) (smoothness : Z)
  (w h : nat) :
  wf_image image ->
  image_size image = (w, h) ->
  (forall e : exn,
     create_squircle_mask_fast numpy (Nat.min w h) smoothness = Raise e ->
     apply_squircle_mask numpy image smoothness = Raise e)
  /\ (forall mask : Band,
        create_squircle_mask_fast numpy (Nat.min w h) smoothness = Ok mask ->
        exists out : Image,
          apply_squircle_mask numpy image smoothness = Ok out
          /\ is_RGBA out = true
          /\ image_size out = (Nat.min w h, Nat.min w h)).
Proof.
  intros Hwf Hsize. split.
  - intros e He.
    rewrite (apply_squircle_mask_unfold numpy image smoothness w h Hsize), He.
    reflexivity.
  - intros mask Hmask.
    pose proof (generated_mask_wf numpy _ smoothness mask Hmask) as Hwm.
    destruct (prepared_source_wf image w h Hwf Hsize)
      as (r & g & b & a & Hp & Hr & Hg & Hb & Ha).
    rewrite (apply_squircle_mask_unfold numpy image smoothness w h Hsize).
    rewrite Hmask. cbn [mbind result_bind]. rewrite Hp. cbn [split].
    rewrite (composite_wf _ a mask Ha Hwm). cbn [mbind result_bind].
    unfold merge_RGBA. rewrite decide_True.
    + eexists. split; [reflexivity |]. split; [reflexivity |].
      unfold image_size. simpl. apply band_size_wf. exact Hr.
    + rewrite (band_size_wf _ r Hr), (band_size_wf _ g Hg), (band_size_wf _ b Hb).
      rewrite band_size_tab. repeat split; reflexivity.
Qed.

Lemma applicator_follows_generator_witness :
  apply_squircle_mask false sample_square (-1) = Raise ZeroDivisionError.
Proof.
  destruct (applicator_follows_generator false sample_square (-1) 2 2
              sample_square_wf eq_refl) as (Hraise & _).
  apply Hraise. vm_compute. reflexivity.
Defined.

(** ** Source resolution and the files written *)

(** X10.  The candidate loop returns the first candidate that exists: the
    candidates before it do not exist, and it returns nothing exactly when no
    candidate exists. *)
Theorem first_existing_is_first (env : Env) (l : list string) :
  match first_existing env l with
  | Some p =>
      exists before after : list string,
        l = before ++ p :: after
        /\ path_exists env p = true
        /\ Forall (fun c => path_exists env c = false) before
  | None => Forall (fun c => path_exists env c = false) l
  end.
Proof.
  induction l as [|c l IH]; simpl.
  - apply Forall_nil. exact I.
  - destruct (path_exists env c) eqn:E.
    + exists [], l. split; [reflexivity |]. split; [exact E |].
      apply Forall_nil. exact I.
    + destruct (first_existing env l) as [p |].
      * destruct IH as (before & after & -> & Hp & Hb).
        exists (c :: before), after. split; [reflexivity |]. split; [exact Hp |].
        apply Forall_cons. split; assumption.
      * apply Forall_cons. split; assumption.
Qed.

Lemma apply_squircle_mask_numpy (numpy : bool) (im : Image) :
  apply_squircle_mask numpy im 5 = apply_squircle_mask false im 5.
Proof.
  destruct (image_size im) as [w h] eqn:Hsize.
  rewrite !(apply_squircle_mask_unfold _ im 5 w h Hsize).
  rewrite !create_squircle_mask_fast_grid by lia. reflexivity.
Qed.

(** X11.  What the script does, exit status and files written, does not
    depend on whether numpy is installed. *)
Theorem script_independent_of_numpy
  (lanczos : Image -> nat * nat -> nat -> nat -> nat -> Z) (env : Env) (d : Disk) (b : bool) :
  script lanczos (set_numpy b env) d = script lanczos env d.
Proof.
  unfold script, main, generate_icon_set, set_numpy. cbn [pillow argv numpy Image_open].
  assert (Hc : first_existing
                 (mkEnv (pillow env) b (argv env) (script_dir env) (path_exists env)
                    (Image_open env))
                 (candidates
                    (mkEnv (pillow env) b (argv env) (script_dir env) (path_exists env)
                       (Image_open env)))
               = first_existing env (candidates env)).
  { unfold candidates, asset_dir. cbn [script_dir].
    generalize [path_join (script_dir env) "icon.png";
                path_join
                  (path_join (path_join (path_join (script_dir env) "PlaintextPanic")
                                "Assets.xcassets") "AppIcon.appiconset")
                  "icon_512x512@2x.png";
                path_join
                  (path_join (path_join (path_join (script_dir env) "PlaintextPanic")
                                "Assets.xcassets") "AppIcon.appiconset")
                  "icon_512x512.png"]%string.
    intros l. induction l as [|c l IH]; simpl; [reflexivity |].
    rewrite IH. reflexivity. }
  rewrite Hc. unfold asset_dir. cbn [script_dir path_exists].
  destruct (pillow env); [| reflexivity].
  destruct (match argv env with
            | _ :: arg :: _ => Ok arg
            | _ => match first_existing env (candidates env) with
                   | Some p => Ok p
                   | None => Raise (SystemExit 1)
                   end
            end) as [source_path | e]; [| reflexivity].
  destruct (path_exists env source_path); [| reflexivity]. cbn [negb].
  destruct (Image_open env source_path) as [source |]; [| reflexivity].
  rewrite (apply_squircle_mask_numpy b source), (apply_squircle_mask_numpy (numpy env) source).
  reflexivity.
Qed.

Lemma emitted_lengths (lanczos : Image -> nat * nat -> nat -> nat -> nat -> Z)
  (masked : Image) (output_dir : string) :
  length (emitted_paths output_dir) = 10 /\ length (emitted lanczos masked) = 10.
Proof. split; reflexivity. Qed.

Lemma default_candidates_emitted (env : Env) (p : string) :
  path_exists env (path_join (script_dir env) "icon.png") = false ->
  first_existing env (candidates env) = Some p ->
  In p (emitted_paths (asset_dir env)).
Proof.
  intros Hicon Hp. unfold candidates in Hp. cbn [first_existing] in Hp.
  rewrite Hicon in Hp.
  unfold emitted_paths, catalogue. cbn [map].
  destruct (path_exists env (path_join (asset_dir env) "icon_512x512@2x.png")).
  - injection Hp as <-. do 9 right. left. reflexivity.
  - destruct (path_exists env (path_join (asset_dir env) "icon_512x512.png"));
      [| discriminate].
    injection Hp as <-. do 8 right. left. reflexivity.
Qed.

(** X12.  Run without argument when no icon.png lies beside the script, the
    script takes its source from the asset catalogue it writes to, and the
    run overwrites that source: the source path is among the files written. *)
Theorem default_source_is_overwritten
  (lanczos : Image -> nat * nat -> nat -> nat -> nat -> Z) (env : Env) (d : Disk)
  (p : string) (source : Image) :
  pillow env = true ->
  length (argv env) <= 1 ->
  path_exists env (path_join (script_dir env) "icon.png") = false ->
  first_existing env (candidates env) = Some p ->
  Image_open env p = Some source ->
  wf_image source ->
  exists written : list (string * Image),
    script lanczos env d
    = (Ok tt, mkDisk (dirs d ++ [asset_dir env]) (files d ++ written))
    /\ In p (map fst written).
Proof.
  intros Hpil Hargv Hicon Hp Hopen Hwf.
  destruct (image_size source) as [w h] eqn:Hsize.
  destruct (apply_squircle_mask_result (numpy env) source w h Hwf Hsize)
    as (r & g & b & a & _ & _ & _ & Hmask).
  exists (zip (emitted_paths (asset_dir env))
            (emitted lanczos (ImRGBA r g b (masked_alpha (Nat.min w h) a)))).
  split.
  - unfold script. rewrite Hpil.
    pose proof (main_cases lanczos env d) as Hmain.
    assert (Hr : resolved_source env = Some p).
    { unfold resolved_source. destruct (argv env) as [|a0 [|arg rest]];
        [exact Hp | exact Hp | simpl in Hargv; lia]. }
    rewrite Hr in Hmain. rewrite Hmain.
    apply (generate_icon_set_ok lanczos env p (asset_dir env) d source _ Hopen Hmask).
  - rewrite fst_zip.
    + apply default_candidates_emitted; assumption.
    + destruct (emitted_lengths lanczos (ImRGBA r g b (masked_alpha (Nat.min w h) a))
                  (asset_dir env)) as (-> & ->). lia.
Qed.

Lemma default_source_is_overwritten_witness :
  exists written : list (string * Image),
    script nearest sample_env_default (mkDisk [] [])
    = (Ok tt,
       mkDisk ([] ++ [asset_dir sample_env_default]) ([] ++ written))
    /\ In "./PlaintextPanic/Assets.xcassets/AppIcon.appiconset/icon_512x512@2x.png"%string
         (map fst written).
Proof.
  apply (default_source_is_overwritten nearest sample_env_default (mkDisk [] [])
           _ sample_image).
  - reflexivity.
  - simpl. lia.
  - reflexivity.
  - reflexivity.
  - reflexivity.
  - exact sample_image_wf.
Defined.

Lemma append_cancel_l (s a b : string) : (s ++ a = s ++ b)%string -> a = b.
Proof.
  induction s as [|c s IH]; simpl; intros H; [exact H |].
  injection H as H. apply IH. exact H.
Qed.

Lemma emitted_paths_nodup (output_dir : string) :
  List.NoDup (emitted_paths output_dir).
Proof.
  unfold emitted_paths, catalogue. cbn [map].
  repeat (apply List.NoDup_cons;
          [cbn [In]; intros H;
           repeat (destruct H as [H | H];
                   [apply append_cancel_l in H; discriminate H |]);
           exact H |]).
  apply List.NoDup_nil.
Qed.

(** X13.  A run of generate_icon_set that reaches the emission loop writes
    ten files whose paths are pairwise distinct and all of the form
    output_dir/name: no file of the set is written twice, none outside the
    output directory. *)
Theorem generate_icon_set_paths_distinct
  (lanczos : Image -> nat * nat -> nat -> nat -> nat -> Z)
  (env : Env) (source_path output_dir : string) (d : Disk) (source masked : Image) :
  Image_open env source_path = Some source ->
  apply_squircle_mask (numpy env) source 5 = Ok masked ->
  exists written : list (string * Image),
    files (snd (generate_icon_set lanczos env source_path output_dir d))
    = files d ++ written
    /\ length written = 10
    /\ List.NoDup (map fst written)
    /\ Forall (fun path => exists name : string, path = path_join output_dir name)
         (map fst written).
Proof.
  intros Hopen Hmask.
  rewrite (generate_icon_set_ok lanczos env source_path output_dir d source masked
             Hopen Hmask).
  exists (zip (emitted_paths output_dir) (emitted lanczos masked)).
  split; [reflexivity |]. split; [reflexivity |].
  rewrite fst_zip by (destruct (emitted_lengths lanczos masked output_dir) as (-> & ->); lia).
  split; [apply emitted_paths_nodup |].
  unfold emitted_paths. apply Forall_fmap. apply Forall_forall.
  intros [base scale] _. simpl. eexists. reflexivity.
Qed.

Lemma generate_icon_set_paths_distinct_witness :
  exists written : list (string * Image),
    files (snd (generate_icon_set nearest sample_env "icon.png"%string "out"%string
                  (mkDisk [] [])))
    = [] ++ written
    /\ length written = 10.
Proof.
  destruct (generate_icon_set_paths_distinct nearest sample_env "icon.png"%string
              "out"%string (mkDisk [] []) sample_square
              (ImRGBA [[10; 20]; [30; 40]]%Z [[11; 21]; [31; 41]]%Z
                      [[12; 22]; [32; 42]]%Z [[0; 0]; [0; 200]]%Z))
    as (written & H1 & H2 & _).
  - reflexivity.
  - vm_compute. reflexivity.
  - exists written. split; assumption.
Defined.

(** ** More on the shape of the mask *)

(** X14.  From size 16 on, with smoothness 5, all four corner pixels of the
    mask are fully transparent. *)
Theorem mask_corners_transparent (size : nat) (mask : Band) :
  16 <= size ->
  create_squircle_mask size 5 = Ok mask ->
  getpixel mask 0 0 = Some 0%Z
  /\ getpixel mask (size - 1) 0 = Some 0%Z
  /\ getpixel mask 0 (size - 1) = Some 0%Z
  /\ getpixel mask (size - 1) (size - 1) = Some 0%Z.
Proof.
  intros Hs Hm.
  destruct (far_corners_transparent size mask Hs Hm) as (H1 & H2 & H3).
  split; [| repeat split; assumption].
  rewrite (generated_mask_is_grid true size mask (or_introl Hm)).
  rewrite getpixel_squircle_grid by lia. f_equal.
  apply (border_alpha size 0). lia.
Qed.

Lemma mask_corners_transparent_witness :
  exists mask : Band,
    create_squircle_mask 16 5 = Ok mask
    /\ getpixel mask 15 15 = Some 0%Z.
Proof.
  destruct (create_squircle_mask 16 5) as [mask | e] eqn:E; [| vm_compute in E; discriminate].
  exists mask. split; [reflexivity |].
  exact (proj2 (proj2 (proj2 (mask_corners_transparent 16 mask ltac:(lia) E)))).
Defined.

(** X15.  With smoothness 5, along every ray of pixels that leaves the
    centre pixel (size/2, size/2) in an integer direction (dx, dy), the
    opacity is non-increasing: the pixel at step t is at most as opaque as
    the pixel at step s <= t. *)
Theorem mask_monotone_on_pixel_rays (size : nat) (mask : Band)
  (dx dy : Z) (s t : nat) (x y x' y' : nat) :
  create_squircle_mask size 5 = Ok mask ->
  x < size -> y < size -> x' < size -> y' < size ->
  s <= t ->
  Z.of_nat x = (Z.of_nat (size / 2) + Z.of_nat s * dx)%Z ->
  Z.of_nat y = (Z.of_nat (size / 2) + Z.of_nat s * dy)%Z ->
  Z.of_nat x' = (Z.of_nat (size / 2) + Z.of_nat t * dx)%Z ->
  Z.of_nat y' = (Z.of_nat (size / 2) + Z.of_nat t * dy)%Z ->
  exists p p' : Z,
    getpixel mask x y = Some p /\ getpixel mask x' y' = Some p' /\ (p' <= p)%Z.
Proof.
  intros Hm Hx Hy Hx' Hy' Hst Ex Ey Ex' Ey'.
  apply (mask_antitone_in_offsets size mask x y x' y' Hm Hx Hy Hx' Hy').
  - rewrite Ex, Ex'. apply centre_pixel_offsets. exact Hst.
  - rewrite Ey, Ey'. apply centre_pixel_offsets. exact Hst.
Qed.

Lemma mask_monotone_on_pixel_rays_witness :
  exists p p' : Z,
    getpixel [[0; 0; 0]; [0; 255; 255]; [0; 255; 255]]%Z 1 1 = Some p
    /\ getpixel [[0; 0; 0]; [0; 255; 255]; [0; 255; 255]]%Z 0 2 = Some p'
    /\ (p' <= p)%Z.
Proof.
  apply (mask_monotone_on_pixel_rays 3 _ (-1) 1 0 1 1 1 0 2).
  - vm_compute. reflexivity.
  - lia.
  - lia.
  - lia.
  - lia.
  - lia.
  - reflexivity.
  - reflexivity.
  - reflexivity.
  - reflexivity.
Defined.

Lemma normalised_le_1 (size x : nat) :
  x < size ->
  (Qabs ((float_of_nat x - float_of_nat size / 2) / (float_of_nat size / 2)) <= 1)%Q.
Proof.
  intros Hx. assert (Hs : 0 < size) by lia.
  pose proof (float_of_nat_pos size Hs) as Hpos.
  rewrite (normalised_doubled size x Hs).
  apply Qle_shift_div_r; [exact Hpos |].
  rewrite Qmult_1_l. unfold float_of_nat. rewrite <- Zle_Qle. lia.
Qed.

Lemma Qpower_nonpos_ge_1 (a : Q) (n : Z) :
  (0 < a)%Q -> (a <= 1)%Q -> (n <= 0)%Z -> (1 <= a ^ n)%Q.
Proof.
  intros Ha Ha1 Hn.
  assert (E : (a ^ n == (/ a) ^ (- n))%Q).
  { rewrite Qinv_power, <- Qpower_opp, Z.opp_involutive. reflexivity. }
  rewrite E. apply Qpower_1_le; [| lia].
  apply Qle_shift_inv_l; [exact Ha | lra].
Qed.

(** One term of the array value under a smoothness that is not positive:
    [inf], or a finite number that is at least 1. *)
Lemma np_term_nonpos (size : nat) (smoothness : Z) (x : nat) :
  x < size -> (smoothness <= 0)%Z ->
  np_pow (np_abs (np_div (Fin (float_of_nat x - float_of_nat size / 2))
                    (float_of_nat size / 2))) smoothness = PInf
  \/ exists q : Q,
       (1 <= q)%Q
       /\ np_pow (np_abs (np_div (Fin (float_of_nat x - float_of_nat size / 2))
                            (float_of_nat size / 2))) smoothness = Fin q.
Proof.
  intros Hx Hn. assert (Hs : 0 < size) by lia.
  destruct (np_term size smoothness x Hs) as (q & Eq & ->).
  destruct (bool_decide (2 * x = size) && (smoothness <? 0)%Z) eqn:Hpole;
    [left; reflexivity | right].
  exists q. split; [| reflexivity]. rewrite Eq.
  destruct (Z.eq_dec smoothness 0%Z) as [-> | Hne].
  - rewrite Qpower_0_r. lra.
  - assert (Hneg : (smoothness <? 0)%Z = true) by (apply Z.ltb_lt; lia).
    rewrite Hneg, andb_true_r in Hpole.
    apply Qpower_nonpos_ge_1; [| apply normalised_le_1; exact Hx | exact Hn].
    apply Qabs_pos_of_nonzero. rewrite (normalised_zero size x Hs). exact Hpole.
Qed.

(** X16.  With a smoothness that is 0 or negative, every mask the generator
    returns (scalar or vectorised) is fully transparent: each term of the
    value is at least 1, so the value is at least 2. *)
Theorem nonpositive_smoothness_gives_transparent_mask (numpy : bool) (size : nat)
  (smoothness : Z) (mask : Band) (x y : nat) :
  (smoothness <= 0)%Z ->
  create_squircle_mask_fast numpy size smoothness = Ok mask ->
  x < size -> y < size ->
  getpixel mask x y = Some 0%Z.
Proof.
  intros Hn Hm Hx Hy.
  assert (E : mask = squircle_array size smoothness).
  { unfold create_squircle_mask_fast in Hm. destruct numpy; [congruence |].
    destruct (scalar_result size smoothness mask Hm) as (-> & ->). reflexivity. }
  rewrite E, squircle_array_grid, getpixel_tab by assumption. f_equal.
  unfold np_value. cbv zeta.
  destruct (np_term_nonpos size smoothness x Hx Hn) as [-> | (qx & Hqx & ->)];
    destruct (np_term_nonpos size smoothness y Hy Hn) as [-> | (qy & Hqy & ->)];
    cbn [np_add]; try reflexivity.
  rewrite array_alpha_Fin. apply pixel_alpha_outside. lra.
Qed.

Lemma nonpositive_smoothness_gives_transparent_mask_witness :
  getpixel [[0; 0]; [0; 0]]%Z 1 1 = Some 0%Z.
Proof.
  apply (nonpositive_smoothness_gives_transparent_mask true 2 0).
  - lia.
  - vm_compute. reflexivity.
  - lia.
  - lia.
Defined.

(** ** The mode of the files written *)

Lemma resize_RGBA (lanczos : Image -> nat * nat -> nat -> nat -> nat -> Z)
  (im : Image) (size : nat * nat) :
  is_RGBA (resize lanczos im size) = is_RGBA im.
Proof. destruct im; reflexivity. Qed.

(** X17.  Whatever the mode of a well-formed source (L, RGB or RGBA),
    generate_icon_set succeeds on it and every image it writes has an alpha
    channel (mode RGBA). *)
Theorem generate_icon_set_writes_RGBA
  (lanczos : Image -> nat * nat -> nat -> nat -> nat -> Z)
  (env : Env) (source_path output_dir : string) (d : Disk) (source : Image) :
  Image_open env source_path = Some source ->
  wf_image source ->
  exists written : list (string * Image),
    generate_icon_set lanczos env source_path output_dir d
    = (Ok tt, mkDisk (dirs d ++ [output_dir]) (files d ++ written))
    /\ Forall (fun entry => is_RGBA (snd entry) = true) written.
Proof.
  intros Hopen Hwf.
  destruct (image_size source) as [w h] eqn:Hsize.
  destruct (apply_squircle_mask_result (numpy env) source w h Hwf Hsize)
    as (r & g & b & a & _ & _ & _ & Hmask).
  rewrite (generate_icon_set_ok lanczos env source_path output_dir d source _ Hopen Hmask).
  eexists. split; [reflexivity |].
  apply Forall_forall. intros [path icon] Hin.
  apply elem_of_zip_r in Hin. unfold emitted in Hin.
  apply list_elem_of_fmap in Hin. destruct Hin as ([base scale] & -> & _).
  cbn [snd]. rewrite resize_RGBA. reflexivity.
Qed.

Lemma generate_icon_set_writes_RGBA_witness :
  exists written : list (string * Image),
    generate_icon_set nearest sample_env_default "icon.png"%string "out"%string
      (mkDisk [] [])
    = (Ok tt, mkDisk ([] ++ ["out"%string]) ([] ++ written))
    /\ Forall (fun entry => is_RGBA (snd entry) = true) written.
Proof.
  apply (generate_icon_set_writes_RGBA nearest sample_env_default "icon.png"%string
           "out"%string (mkDisk [] []) sample_image).
  - reflexivity.
  - exact sample_image_wf.
Defined.
